(** * Network topology monitor: status engine and failover resolution

    A shallow embedding of the two monitors of the repository:

    - the scripted polling monitor [monitor.ps1] (module [Script]);
    - the embedded scheduler of the desktop application: the
      [monitor:start] / [monitor:stop] handlers of the main process and the
      [onStatus] listener of the renderer (module [App]).

    Instants are integers: 100ns ticks for the script (the resolution of a
    .NET [DateTime]), milliseconds for the application ([Date.now()]). *)

From stdpp Require Import base strings pretty list gmap.
From Stdlib Require Import ZArith Lia.

Local Open Scope string_scope.
Local Open Scope Z_scope.

(** ** Duration formatting *)

Module Duration.

(** [formatDuration(ms)] of the renderer.  [Math.floor (a / b)] on integers
    is [Z.div]; [%] is the truncated remainder [Z.rem]; a number is
    concatenated to a string in decimal. *)
Definition formatDuration (ms : Z) : string :=
  let seconds := ms / 1000 in
  if seconds <? 60 then pretty seconds +:+ "s" else
  let minutes := seconds / 60 in
  if minutes <? 60 then pretty minutes +:+ "m " +:+ pretty (Z.rem seconds 60) +:+ "s" else
  let hours := minutes / 60 in
  if hours <? 24 then pretty hours +:+ "h " +:+ pretty (Z.rem minutes 60) +:+ "m" else
  let days := hours / 24 in
  pretty days +:+ "d " +:+ pretty (Z.rem hours 24) +:+ "h".

(** A .NET [TimeSpan] is a count of 100ns ticks.  Its component properties
    truncate towards zero; [TotalDays], [TotalHours] and [TotalMinutes] are
    the tick count divided by the unit, so [Total* -ge 1] holds exactly when
    the tick count reaches the unit. *)
Record TimeSpan := { Ticks : Z }.

Definition TicksPerMillisecond : Z := 10000.
Definition TicksPerSecond : Z := 10000000.
Definition TicksPerMinute : Z := 600000000.
Definition TicksPerHour : Z := 36000000000.
Definition TicksPerDay : Z := 864000000000.

Definition FromMilliseconds (ms : Z) : TimeSpan :=
  {| Ticks := ms * TicksPerMillisecond |}.

Definition Days (t : TimeSpan) : Z := Z.quot (Ticks t) TicksPerDay.
Definition Hours (t : TimeSpan) : Z := Z.rem (Z.quot (Ticks t) TicksPerHour) 24.
Definition Minutes (t : TimeSpan) : Z := Z.rem (Z.quot (Ticks t) TicksPerMinute) 60.
Definition Seconds (t : TimeSpan) : Z := Z.rem (Z.quot (Ticks t) TicksPerSecond) 60.

Definition TotalDays_ge_1 (t : TimeSpan) : bool := TicksPerDay <=? Ticks t.
Definition TotalHours_ge_1 (t : TimeSpan) : bool := TicksPerHour <=? Ticks t.
Definition TotalMinutes_ge_1 (t : TimeSpan) : bool := TicksPerMinute <=? Ticks t.

(** [Get-DurationString] of the script. *)
Definition Get_DurationString (t : TimeSpan) : string :=
  if TotalDays_ge_1 t then
    pretty (Days t) +:+ "d " +:+ pretty (Hours t) +:+ "h " +:+ pretty (Minutes t) +:+ "m"
  else if TotalHours_ge_1 t then
    pretty (Hours t) +:+ "h " +:+ pretty (Minutes t) +:+ "m"
  else if TotalMinutes_ge_1 t then
    pretty (Minutes t) +:+ "m " +:+ pretty (Seconds t) +:+ "s"
  else
    pretty (Seconds t) +:+ "s".

(** The bucketing policy in the words of the specification: the largest
    unit first, at most two units, each component the integer floor of what
    remains of the span (in milliseconds) once the larger unit is taken
    out. *)
Definition msPerSecond : Z := 1000.
Definition msPerMinute : Z := 60 * msPerSecond.
Definition msPerHour : Z := 60 * msPerMinute.
Definition msPerDay : Z := 24 * msPerHour.

Definition two_units (d big small : Z) (ubig usmall : string) : string :=
  let q := d / big in
  pretty q +:+ ubig +:+ " " +:+ pretty ((d - q * big) / small) +:+ usmall.

Definition bucket_policy (d : Z) : string :=
  if d <? msPerMinute then pretty (d / msPerSecond) +:+ "s"
  else if d <? msPerHour then two_units d msPerMinute msPerSecond "m" "s"
  else if d <? msPerDay then two_units d msPerHour msPerMinute "h" "m"
  else two_units d msPerDay msPerHour "d" "h".

(** What the script prints from one day on: three units. *)
Definition three_units (d : Z) : string :=
  let q := d / msPerDay in
  let r := d - q * msPerDay in
  let h := r / msPerHour in
  pretty q +:+ "d " +:+ pretty h +:+ "h " +:+ pretty ((r - h * msPerHour) / msPerMinute) +:+ "m".

End Duration.

(** ** The scripted monitor, [monitor.ps1] *)

Module Script.

(** Host ids are the keys of the two hashtables of the script, [$statuses]
    and [$stateStore]; an id stands here for its class under the key
    comparison of the hashtable, and the tables are finite maps over ids. *)

(** A scalar of the parsed [config.json], as [ConvertFrom-Json] hands it
    over. *)
Inductive Json :=
  | JNull
  | JStr (s : string)
  | JNum (z : Z).

(** One element of [$rawNodes].  Ids and addresses are strings or [$null]. *)
Record RawNode := {
  raw_id : string;
  raw_name : Json;
  raw_address : option string;
  raw_port : Json;
  raw_primaryParentId : option string;
  raw_secondaryParentId : option string;
  raw_icon : Json;
  raw_iconType : Json;
  raw_x : Json;
  raw_y : Json
}.

(** One element of [$nodes], the normalised host list of a tick. *)
Record Node := {
  id : string;
  name : Json;
  address : option string;
  port : option Z;
  primaryParentId : option string;
  secondaryParentId : option string;
  icon : Json;
  iconType : Json;
  x : Json;
  y : Json
}.

(** [$v -and ...] on a string or [$null]: only a non-empty string is true. *)
Definition truthy (v : option string) : bool :=
  match v with
  | Some s => negb (String.eqb s "")
  | None => false
  end.

(** [if ($n.p -and $n.p -ne '') { $n.p } else { $null }] *)
Definition normalizeParent (v : option string) : option string :=
  if truthy v && negb (bool_decide (v = Some "")) then v else None.

Definition Int32_MinValue : Z := - 2 ^ 31.
Definition Int32_MaxValue : Z := 2 ^ 31 - 1.

(** [if ($null -ne $n.port -and $n.port -ne '') { [int]$n.port } else { $null }].
    With a number on the left, [-ne ''] converts the empty string to [0], so
    the number [0] counts as empty.  [cast] is the [[int]] conversion of a
    string, [None] when it raises; a failed conversion aborts the statement
    and the node is not added to [$nodes]. *)
Definition normalizePort (cast : string → option Z) (v : Json) : option (option Z) :=
  match v with
  | JNull => Some None
  | JStr s => if String.eqb s "" then Some None else Some <$> cast s
  | JNum z =>
      if z =? 0 then Some None
      else if (Int32_MinValue <=? z) && (z <=? Int32_MaxValue) then Some (Some z)
      else None
  end.

Definition normalizeNode (cast : string → option Z) (n : RawNode) : option Node :=
  p ← normalizePort cast (raw_port n);
  Some {| id := raw_id n;
          name := raw_name n;
          address := raw_address n;
          port := p;
          primaryParentId := normalizeParent (raw_primaryParentId n);
          secondaryParentId := normalizeParent (raw_secondaryParentId n);
          icon := raw_icon n;
          iconType := raw_iconType n;
          x := raw_x n;
          y := raw_y n |}.

(** [foreach ($n in $rawNodes) { $nodes += ... }] *)
Definition normalizeNodes (cast : string → option Z) (rawNodes : list RawNode) : list Node :=
  omap (normalizeNode cast) rawNodes.

(** *** Probes.  Network operations are recorded in a trace. *)

Inductive IoEvent :=
  | PingSend (addr : string) (timeoutMs : Z)
  | TcpBeginConnect (addr : string) (port : Z) (timeoutMs : Z).

(** The state of the network during one scan: whether the operation
    succeeds within its timeout.  Exceptions and timeouts are [false]. *)
Definition Network : Type := IoEvent → bool.

Definition IO (A : Type) : Type := A * list IoEvent.
Definition io_ret {A} (a : A) : IO A := (a, []).
Definition io_bind {A B} (m : IO A) (f : A → IO B) : IO B :=
  let r := f (fst m) in (fst r, (snd m ++ snd r)%list).
Definition perform (net : Network) (e : IoEvent) : IO bool := (net e, [e]).

Notation "'let*' x ':=' m 'in' k" := (io_bind m (λ x, k))
  (at level 10, x name, m at level 100, k at level 200, only parsing).

(** The ASCII part of [Char.IsWhiteSpace]. *)
Definition isWhiteSpace (c : Ascii.ascii) : bool :=
  let n := Ascii.N_of_ascii c in ((9 <=? n) && (n <=? 13) || (n =? 32))%N.

Fixpoint allWhiteSpace (s : string) : bool :=
  match s with
  | EmptyString => true
  | String c r => isWhiteSpace c && allWhiteSpace r
  end.

Definition IsNullOrWhiteSpace (v : option string) : bool :=
  match v with
  | None => true
  | Some s => allWhiteSpace s
  end.

Definition pingTimeoutMs : Z := 300.
Definition portTimeoutMs : Z := 300.

Definition Test_PingFast (net : Network) (Address : option string) (TimeoutMs : Z) : IO bool :=
  if IsNullOrWhiteSpace Address then io_ret false
  else perform net (PingSend (default "" Address) TimeoutMs).

(** [-not $Port] holds for [$null] and for [0]. *)
Definition notPort (Port : option Z) : bool :=
  match Port with
  | Some p => p =? 0
  | None => true
  end.

Definition Test_PortFast (net : Network) (Address : option string) (Port : option Z)
    (TimeoutMs : Z) : IO bool :=
  if IsNullOrWhiteSpace Address || notPort Port then io_ret false
  else perform net (TcpBeginConnect (default "" Address) (default 0 Port) TimeoutMs).

(** The body of the "Perform checks" loop for one entry. *)
Definition checkEntry (net : Network) (statuses : gmap string bool) (entry : Node)
    : IO (gmap string bool) :=
  if IsNullOrWhiteSpace (address entry) then io_ret (<[id entry := false]> statuses)
  else
    let* up := match port entry with
               | Some _ => Test_PortFast net (address entry) (port entry) portTimeoutMs
               | None => Test_PingFast net (address entry) pingTimeoutMs
               end in
    io_ret (<[id entry := up]> statuses).

Fixpoint performChecks (net : Network) (nodes : list Node) (statuses : gmap string bool)
    : IO (gmap string bool) :=
  match nodes with
  | [] => io_ret statuses
  | entry :: rest =>
      let* statuses' := checkEntry net statuses entry in
      performChecks net rest statuses'
  end.

(** The status the check loop records for one entry. *)
Definition checkStatus (net : Network) (entry : Node) : bool :=
  default false (fst (checkEntry net ∅ entry) !! id entry).

(** *** State tracking and failover *)

Record HostState := { Status : bool; ChangeTime : Z }.

(** "1. State / Uptime Logic": the update of [$stateStore] for one id. *)
Definition trackState (stateStore : gmap string HostState) (i : string) (isUp : bool)
    (now : Z) : gmap string HostState :=
  match stateStore !! i with
  | None => <[i := {| Status := isUp; ChangeTime := now |}]> stateStore
  | Some st =>
      if negb (Bool.eqb (Status st) isUp)
      then <[i := {| Status := isUp; ChangeTime := now |}]> stateStore
      else stateStore
  end.

(** The tracker fed with a sequence of observations, oldest first; the
    previous observation of an id is the latest one in the sequence. *)
Record Observation := { obs_id : string; obs_status : bool; obs_time : Z }.

Definition observe (stateStore : gmap string HostState) (o : Observation)
    : gmap string HostState :=
  trackState stateStore (obs_id o) (obs_status o) (obs_time o).

Definition observeAll (os : list Observation) : gmap string HostState :=
  foldl observe ∅ os.

Definition previous (i : string) (os : list Observation) : option Observation :=
  last (filter (λ o, obs_id o = i) os).

(** [$now - $stateStore[$entry.id].ChangeTime] after the update. *)
Definition durationSpan (stateStore : gmap string HostState) (i : string) (now : Z)
    : Duration.TimeSpan :=
  {| Duration.Ticks := now - match stateStore !! i with
                             | Some st => ChangeTime st
                             | None => now
                             end |}.

(** "2. Failover Logic". *)
Definition parentUp (statuses : gmap string bool) (parentId : option string) : bool :=
  match parentId with
  | Some p => if truthy parentId && bool_decide (is_Some (statuses !! p))
              then default false (statuses !! p) else false
  | None => false
  end.

Definition resolveActiveParent (entry : Node) (statuses : gmap string bool) : option string :=
  let primaryId := primaryParentId entry in
  let secondaryId := secondaryParentId entry in
  let primaryUp := parentUp statuses primaryId in
  let secondaryUp := parentUp statuses secondaryId in
  if primaryUp then primaryId
  else if secondaryUp then secondaryId
  else primaryId.

(** A parent field is set when it holds a non-empty id; it is reachable
    when moreover the statuses map gives that id [true]. *)
Definition isSet (v : option string) : Prop := ∃ a, v = Some a ∧ a ≠ "".

Definition reachable (statuses : gmap string bool) (v : option string) : Prop :=
  ∃ a, v = Some a ∧ a ≠ "" ∧ statuses !! a = Some true.

(** One element of [$finalResults]. *)
Record ResolvedHost := {
  r_id : string;
  r_name : Json;
  r_address : option string;
  r_port : option Z;
  r_status : bool;
  r_icon : Json;
  r_iconType : Json;
  r_primaryParentId : option string;
  r_secondaryParentId : option string;
  r_activeParentId : option string;
  r_x : Json;
  r_y : Json;
  r_uptime : string
}.

(** The record built from an entry and the three values a tick computes. *)
Definition resolved (entry : Node) (isUp : bool) (uptimeString : string)
    (activeParentId : option string) : ResolvedHost :=
  {| r_id := id entry;
     r_name := name entry;
     r_address := address entry;
     r_port := port entry;
     r_status := isUp;
     r_icon := icon entry;
     r_iconType := iconType entry;
     r_primaryParentId := primaryParentId entry;
     r_secondaryParentId := secondaryParentId entry;
     r_activeParentId := activeParentId;
     r_x := x entry;
     r_y := y entry;
     r_uptime := uptimeString |}.


(** The body of the "Process logic" loop for one entry.  [$statuses] holds
    every id of [$nodes] when the loop runs; the default stands for the
    [$null] of a missing key. *)
Definition processEntry (statuses : gmap string bool) (now : Z)
    (stateStore : gmap string HostState) (entry : Node)
    : ResolvedHost * gmap string HostState :=
  let isUp := default false (statuses !! id entry) in
  let stateStore' := trackState stateStore (id entry) isUp now in
  let uptimeString := Duration.Get_DurationString (durationSpan stateStore' (id entry) now) in
  let activeParentId := resolveActiveParent entry statuses in
  (resolved entry isUp uptimeString activeParentId, stateStore').

Fixpoint processNodes (statuses : gmap string bool) (now : Z) (nodes : list Node)
    (stateStore : gmap string HostState) : list ResolvedHost * gmap string HostState :=
  match nodes with
  | [] => ([], stateStore)
  | entry :: rest =>
      let '(r, stateStore') := processEntry statuses now stateStore entry in
      let '(rs, stateStore'') := processNodes statuses now rest stateStore' in
      (r :: rs, stateStore'')
  end.

(** One iteration of the main loop over an already normalised host list:
    the checks fill [$statuses], then the process loop builds
    [$finalResults]. *)
Record TickResult := {
  finalResults : list ResolvedHost;
  stateStore_after : gmap string HostState;
  io_trace : list IoEvent
}.

Definition tick (net : Network) (now : Z) (nodes : list Node)
    (stateStore : gmap string HostState) : TickResult :=
  let checked := performChecks net nodes ∅ in
  let processed := processNodes (fst checked) now nodes stateStore in
  {| finalResults := fst processed;
     stateStore_after := snd processed;
     io_trace := snd checked |}.

(** One pass of [while ($true)]: what the configuration file holds (if it
    can be read), the network and the clock. *)
Record Pass := {
  pass_config : option (list RawNode);
  pass_net : Network;
  pass_now : Z
}.

(** The outputs written to [status.js] by successive passes; a pass
    without a readable configuration writes nothing. *)
Fixpoint run (cast : string → option Z) (passes : list Pass)
    (stateStore : gmap string HostState) : list (list ResolvedHost) * gmap string HostState :=
  match passes with
  | [] => ([], stateStore)
  | p :: rest =>
      match pass_config p with
      | None => run cast rest stateStore
      | Some rawNodes =>
          let t := tick (pass_net p) (pass_now p) (normalizeNodes cast rawNodes) stateStore in
          let '(outs, final) := run cast rest (stateStore_after t) in
          (finalResults t :: outs, final)
      end
  end.

End Script.

(** ** The embedded scheduler of the desktop application

    The main process runs one task of its event loop at a time: a handler
    is invoked, a timer fires, an operation gives its outcome.  An [async]
    function that reaches an [await] on a promise not yet settled gives up
    control, and other tasks run before it goes on: the [monitor:start]
    handler does so at [await runMonitoring()], and [runMonitoring] at
    [await Promise.all(...)].  An [await] on a promise already settled goes
    on within the same task. *)

Module App.

(** JavaScript scalars; numbers are integers here. *)
Inductive JsVal :=
  | JsUndefined
  | JsNull
  | JsBool (b : bool)
  | JsNum (z : Z)
  | JsStr (s : string).

Definition ToBoolean (v : JsVal) : bool :=
  match v with
  | JsUndefined | JsNull => false
  | JsBool b => b
  | JsNum z => negb (z =? 0)
  | JsStr s => negb (String.eqb s "")
  end.

#[export] Instance JsVal_eq_dec : EqDecision JsVal.
Proof. solve_decision. Defined.

(** The conversion used by a template literal. *)
Definition ToString (v : JsVal) : string :=
  match v with
  | JsUndefined => "undefined"
  | JsNull => "null"
  | JsBool true => "true"
  | JsBool false => "false"
  | JsNum z => pretty z
  | JsStr s => s
  end.

(** A node object: its own properties.  Reading a missing property gives
    [undefined]. *)
Abbreviation JsObj := (gmap string JsVal).

Definition prop (o : JsObj) (k : string) : JsVal := default JsUndefined (o !! k).

(** [a || b] *)
Definition or_else (a b : JsVal) : JsVal := if ToBoolean a then a else b.

(** [config.nodes]: a falsy value (missing, [null], ...), an array of node
    objects, or some other truthy value, which has no [map] method. *)
Inductive NodesField :=
  | NodesFalsy
  | NodesArray (l : list JsObj)
  | NodesOther.

Record Config := { nodes : NodesField; interval : JsVal }.

(** Network operations of the main process. *)
Inductive IoEvent :=
  | SocketConnect (port address : JsVal)
  | Exec (cmd : string).

(** What surrounds an event of the main process: the platform, what the
    socket library makes of a port given as a string ([true] when it
    refuses it), the outcome of each operation ([true] for [connect] or a
    ping without error), the milliseconds between its start and its
    outcome, and the wall-clock label. *)
Record Env := {
  isWindows : bool;
  refusesPort : string → bool;
  online : IoEvent → bool;
  took : IoEvent → Z;
  timeString : string
}.

Record Timer := { handle : nat; delay : JsVal }.

Record StatusMessage := { msg_nodes : list JsObj; msg_updated : string }.

(** Who called [runMonitoring]: the [start] handler, which awaits the round
    and holds its [config] argument, or an interval timer. *)
Inductive Caller :=
  | ByStart (config : option Config)
  | ByTimer.

(** One call of the function mapped over the nodes: the node, the
    operation it waits for, and the object it returns once the operation
    has given its outcome. *)
Record Probe := { node : JsObj; op : IoEvent; result : option JsObj }.

(** A round of [runMonitoring] waiting in [Promise.all]. *)
Record Round := { probes : list Probe; caller : Caller }.

(** The node array a round was started on. *)
Definition mapped (rd : Round) : list JsObj := node <$> probes rd.

(** The main process: the two module-level variables, the armed interval
    timers of the event loop, the messages sent on [monitor:status] (latest
    first), the network operations issued (in order) and the rounds in
    flight. *)
Record Main := {
  monitoringInterval : option nat;
  monitoringConfig : option Config;
  timers : list Timer;
  nextHandle : nat;
  sent : list StatusMessage;
  issued : list IoEvent;
  rounds : gmap nat Round;
  nextRound : nat
}.

Definition initial : Main :=
  {| monitoringInterval := None; monitoringConfig := None; timers := [];
     nextHandle := 0; sent := []; issued := []; rounds := ∅; nextRound := 0 |}.

(** Code between two suspension points runs in a state monad with
    exceptions: [None] is a thrown error; the state reached before the throw
    is kept. *)
Definition M (A : Type) : Type := Main → option A * Main.

Definition ret {A} (a : A) : M A := λ s, (Some a, s).
Definition throw {A} : M A := λ s, (None, s).
Definition bind {A B} (m : M A) (f : A → M B) : M B :=
  λ s, match m s with
       | (Some a, s') => f a s'
       | (None, s') => (None, s')
       end.
Definition gets {A} (f : Main → A) : M A := λ s, (Some (f s), s).
Definition modify (f : Main → Main) : M unit := λ s, (Some tt, f s).

Notation "'do' x '<-' m ';;' k" := (bind m (λ x, k))
  (at level 10, x name, m at level 99, k at level 200, only parsing).
Notation "m ';;' k" := (bind m (λ _, k))
  (at level 100, k at level 200, right associativity, only parsing).

Definition set_monitoringConfig (c : option Config) : M unit :=
  modify (λ s, {| monitoringInterval := monitoringInterval s; monitoringConfig := c;
                  timers := timers s; nextHandle := nextHandle s; sent := sent s;
                  issued := issued s; rounds := rounds s; nextRound := nextRound s |}).

Definition set_monitoringInterval (h : option nat) : M unit :=
  modify (λ s, {| monitoringInterval := h; monitoringConfig := monitoringConfig s;
                  timers := timers s; nextHandle := nextHandle s; sent := sent s;
                  issued := issued s; rounds := rounds s; nextRound := nextRound s |}).

Definition clearInterval (h : nat) : M unit :=
  modify (λ s, {| monitoringInterval := monitoringInterval s;
                  monitoringConfig := monitoringConfig s;
                  timers := filter (λ t, handle t ≠ h) (timers s);
                  nextHandle := nextHandle s; sent := sent s; issued := issued s;
                  rounds := rounds s; nextRound := nextRound s |}).

Definition setInterval (d : JsVal) : M nat :=
  λ s, (Some (nextHandle s),
        {| monitoringInterval := monitoringInterval s;
           monitoringConfig := monitoringConfig s;
           timers := {| handle := nextHandle s; delay := d |} :: timers s;
           nextHandle := S (nextHandle s); sent := sent s; issued := issued s;
           rounds := rounds s; nextRound := nextRound s |}).

Definition issue (evs : list IoEvent) : M unit :=
  modify (λ s, {| monitoringInterval := monitoringInterval s;
                  monitoringConfig := monitoringConfig s;
                  timers := timers s; nextHandle := nextHandle s; sent := sent s;
                  issued := (issued s ++ evs)%list;
                  rounds := rounds s; nextRound := nextRound s |}).

Definition send (m : StatusMessage) : M unit :=
  modify (λ s, {| monitoringInterval := monitoringInterval s;
                  monitoringConfig := monitoringConfig s;
                  timers := timers s; nextHandle := nextHandle s; sent := m :: sent s;
                  issued := issued s; rounds := rounds s; nextRound := nextRound s |}).

(** A round starts to wait, keeps waiting with one more result, or is
    over. *)
Definition openRound (rd : Round) : M nat :=
  λ s, (Some (nextRound s),
        {| monitoringInterval := monitoringInterval s;
           monitoringConfig := monitoringConfig s;
           timers := timers s; nextHandle := nextHandle s; sent := sent s;
           issued := issued s;
           rounds := <[nextRound s := rd]> (rounds s); nextRound := S (nextRound s) |}).

Definition keepRound (r : nat) (rd : Round) : M unit :=
  modify (λ s, {| monitoringInterval := monitoringInterval s;
                  monitoringConfig := monitoringConfig s;
                  timers := timers s; nextHandle := nextHandle s; sent := sent s;
                  issued := issued s;
                  rounds := <[r := rd]> (rounds s); nextRound := nextRound s |}).

Definition closeRound (r : nat) : M unit :=
  modify (λ s, {| monitoringInterval := monitoringInterval s;
                  monitoringConfig := monitoringConfig s;
                  timers := timers s; nextHandle := nextHandle s; sent := sent s;
                  issued := issued s;
                  rounds := delete r (rounds s); nextRound := nextRound s |}).

(** The network operation [runMonitoring] calls for one node:
    [socket.connect(node.port, node.address)] when the port is truthy,
    [exec] of the ping command otherwise. *)
Definition probeEvent (env : Env) (node : JsObj) : IoEvent :=
  if ToBoolean (prop node "port")
  then SocketConnect (prop node "port") (prop node "address")
  else Exec ((if isWindows env then "ping -n 1 -w 500 " else "ping -c 1 -W 1 ")
             +:+ ToString (prop node "address")).

(** Whether the call throws instead of starting the operation.
    [socket.connect(port, address)] checks its port before any I/O: a
    number has to be an integer of 0..65535, a string is converted by the
    library, a value of another type is refused.  [exec] takes any command
    string. *)
Definition refused (env : Env) (ev : IoEvent) : bool :=
  match ev with
  | SocketConnect (JsNum z) _ => negb ((0 <=? z) && (z <=? 65535))
  | SocketConnect (JsStr s) _ => refusesPort env s
  | SocketConnect _ _ => true
  | Exec _ => false
  end.

(** [{ ...node, status: online, responseTime: Date.now() - start }] *)
Definition statusResult (node : JsObj) (online : bool) (responseTime : Z) : JsObj :=
  <["responseTime" := JsNum responseTime]> (<["status" := JsBool online]> node).

(** The object returned for a node when [env] gives the outcome of its
    operation. *)
Definition probeNode (env : Env) (node : JsObj) : JsObj :=
  let ev := probeEvent env node in
  statusResult node (online env ev) (took env ev).

(** The mapped function up to its [await]. *)
Definition pending (env : Env) (n : JsObj) : Probe :=
  {| node := n; op := probeEvent env n; result := None |}.

(** The mapped function after its [await]: the object it returns when
    [env] gives the outcome of its operation. *)
Definition outcome (env : Env) (p : Probe) : JsObj :=
  statusResult (node p) (online env (op p)) (took env (op p)).

Definition settled (env : Env) (p : Probe) : Probe :=
  {| node := node p; op := op p; result := Some (outcome env p) |}.

(** [statusResults], once every promise is fulfilled. *)
Definition statusResults (rd : Round) : option (list JsObj) := mapM result (probes rd).

Inductive Progress :=
  | Returned
  | Pending (r : nat).

(** [runMonitoring()] up to the point where it waits for outcomes.  The
    operations of all nodes are started in the order of the array; a
    refused [connect] rejects the promise of its node and with it the
    round, which then sends nothing.  [Promise.all] of no promise is
    fulfilled at once. *)
Definition runMonitoring (env : Env) (who : Caller) : M Progress :=
  do cfg <- gets monitoringConfig ;;
  match cfg with
  | None => ret Returned
  | Some c =>
      match nodes c with
      | NodesFalsy => ret Returned
      | NodesOther => throw
      | NodesArray l =>
          let ops := probeEvent env <$> l in
          issue (List.filter (λ ev, negb (refused env ev)) ops) ;;
          if existsb (refused env) ops then throw
          else
            match l with
            | [] =>
                send {| msg_nodes := []; msg_updated := timeString env |} ;;
                ret Returned
            | _ :: _ =>
                do r <- openRound {| probes := pending env <$> l; caller := who |} ;;
                ret (Pending r)
            end
      end
  end.

Record Reply := { success : bool }.

(** What an invocation of a handler has come to when it gives up control:
    its reply, or the round it awaits. *)
Inductive Outcome :=
  | Replied (r : Reply)
  | Awaiting (round : nat).

(** [ipcMain.handle('monitor:start', ...)].  The handler first installs the
    configuration and cancels the timer [monitoringInterval] refers to. *)
Definition replaceRun (config : option Config) : M unit :=
  set_monitoringConfig config ;;
  do h <- gets monitoringInterval ;;
  match h with Some t => clearInterval t | None => ret tt end.

(** The handler after [await runMonitoring()]: it arms the timer, stores
    its handle and replies.  Reading [config.interval] of a missing [config]
    throws. *)
Definition resume (config : option Config) : M Reply :=
  do c <- match config with Some c => ret c | None => throw end ;;
  do t <- setInterval (or_else (interval c) (JsNum 2000)) ;;
  set_monitoringInterval (Some t) ;;
  ret {| success := true |}.

(** The handler up to its reply or up to the point where it waits for the
    round. *)
Definition start (env : Env) (config : option Config) : M Outcome :=
  replaceRun config ;;
  do p <- runMonitoring env (ByStart config) ;;
  match p with
  | Returned => do r <- resume config ;; ret (Replied r)
  | Pending r => ret (Awaiting r)
  end.

(** The state once [monitoringInterval = setInterval(...)] has run. *)
Definition arm (c : Config) (s : Main) : Main :=
  {| monitoringInterval := Some (nextHandle s);
     monitoringConfig := monitoringConfig s;
     timers := {| handle := nextHandle s; delay := or_else (interval c) (JsNum 2000) |}
               :: timers s;
     nextHandle := S (nextHandle s); sent := sent s; issued := issued s;
     rounds := rounds s; nextRound := nextRound s |}.

(** [runMonitoring] once [Promise.all] is fulfilled: round [r] sends its
    message, and a [start] handler that awaited it goes on. *)
Definition finish (env : Env) (r : nat) (who : Caller) (results : list JsObj) : M unit :=
  closeRound r ;;
  send {| msg_nodes := results; msg_updated := timeString env |} ;;
  match who with
  | ByStart config => resume config ;; ret tt
  | ByTimer => ret tt
  end.

(** The operation of probe [i] of round [r] gives its outcome: the mapped
    function returns its object, and the round goes on when that was the
    last one it waited for. *)
Definition settle (env : Env) (r i : nat) : M unit :=
  do rs <- gets rounds ;;
  match rs !! r with
  | None => ret tt
  | Some rd =>
      match probes rd !! i with
      | None => ret tt
      | Some p =>
          match result p with
          | Some _ => ret tt
          | None =>
              let rd' := {| probes := <[i := settled env p]> (probes rd);
                            caller := caller rd |} in
              match statusResults rd' with
              | None => keepRound r rd'
              | Some results => finish env r (caller rd) results
              end
          end
      end
  end.

(** What [settle] does: nothing, one more result while others are waited
    for, or the end of the round. *)
Inductive Settled (env : Env) (r i : nat) (s : Main) : option unit * Main → Prop :=
  | settled_nothing :
      (∀ rd p, rounds s !! r = Some rd → probes rd !! i = Some p → is_Some (result p)) →
      Settled env r i s (Some tt, s)
  | settled_one rd p :
      rounds s !! r = Some rd → probes rd !! i = Some p → result p = None →
      let rd' := {| probes := <[i := settled env p]> (probes rd); caller := caller rd |} in
      statusResults rd' = None →
      Settled env r i s
        (Some tt,
         {| monitoringInterval := monitoringInterval s;
            monitoringConfig := monitoringConfig s;
            timers := timers s; nextHandle := nextHandle s; sent := sent s;
            issued := issued s;
            rounds := <[r := rd']> (rounds s); nextRound := nextRound s |})
  | settled_last rd p results :
      rounds s !! r = Some rd → probes rd !! i = Some p → result p = None →
      statusResults {| probes := <[i := settled env p]> (probes rd); caller := caller rd |}
      = Some results →
      let s' := {| monitoringInterval := monitoringInterval s;
                   monitoringConfig := monitoringConfig s;
                   timers := timers s; nextHandle := nextHandle s;
                   sent := {| msg_nodes := results; msg_updated := timeString env |} :: sent s;
                   issued := issued s;
                   rounds := delete r (rounds s); nextRound := nextRound s |} in
      Settled env r i s
        (match caller rd with
         | ByTimer => (Some tt, s')
         | ByStart (Some c) => (Some tt, arm c s')
         | ByStart None => (None, s')
         end).

(** [ipcMain.handle('monitor:stop', ...)] *)
Definition stop : M Reply :=
  do h <- gets monitoringInterval ;;
  match h with
  | Some t => clearInterval t ;; set_monitoringInterval None
  | None => ret tt
  end ;;
  ret {| success := true |}.

Definition armed (h : nat) (s : Main) : bool :=
  bool_decide (h ∈ handle <$> timers s).

(** What happens to the main process, one task of the event loop at a
    time: a handler is invoked and runs until it replies or waits, an armed
    timer fires and [runMonitoring] runs until it waits (an exception there
    is an unhandled rejection), or an operation gives its outcome. *)
Inductive Event :=
  | CallStart (env : Env) (config : option Config)
  | CallStop
  | TimerFires (env : Env) (h : nat)
  | ProbeSettles (env : Env) (r i : nat).

Definition step (e : Event) (s : Main) : Main :=
  match e with
  | CallStart env config => snd (start env config s)
  | CallStop => snd (stop s)
  | TimerFires env h => if armed h s then snd (runMonitoring env ByTimer s) else s
  | ProbeSettles env r i => snd (settle env r i s)
  end.

Definition steps (es : list Event) (s : Main) : Main := foldl (λ s e, step e s) s es.

(** The outcomes of all probes of round [r] over [n] nodes, in the order
    of the array. *)
Definition settleAll (env : Env) (r n : nat) : list Event :=
  ProbeSettles env r <$> seq 0 n.

(** The loop is Running when a timer is armed and Idle otherwise. *)
Definition Running (s : Main) : Prop := timers s ≠ [].
Definition Idle (s : Main) : Prop := timers s = [].

(** Every armed timer is the one [monitoringInterval] refers to, and
    handles are never reused. *)
Definition consistent (s : Main) : Prop :=
  (∀ t, t ∈ timers s → monitoringInterval s = Some (handle t))
  ∧ NoDup (handle <$> timers s)
  ∧ (∀ t, t ∈ timers s → (handle t < nextHandle s)%nat).

(** A [start] handler waits for its first round. *)
Definition awaited (rd : Round) : bool :=
  match caller rd with ByStart _ => true | ByTimer => false end.

Definition suspended (s : Main) : bool :=
  existsb (λ x, awaited x.2) (map_to_list (rounds s)).

(** A run in which no [start] is invoked while an earlier [start] waits
    for its first round. *)
Fixpoint orderly (es : list Event) (s : Main) : bool :=
  match es with
  | [] => true
  | e :: es =>
      (match e with CallStart _ _ => negb (suspended s) | _ => true end)
      && orderly es (step e s)
  end.

(** In a run that is [orderly] every armed timer is the one
    [monitoringInterval] refers to; while a [start] waits for its first
    round no timer is armed, and no second [start] waits. *)
Definition inOrder (s : Main) : Prop :=
  consistent s
  ∧ (∀ r rd, rounds s !! r = Some rd → awaited rd = true →
       timers s = []
       ∧ ∀ r' rd', rounds s !! r' = Some rd' → awaited rd' = true → r' = r).

(** The object a probe holds is the one built from its node. *)
Definition built (p : Probe) : Prop :=
  ∀ o, result p = Some o → ∃ b t, o = statusResult (node p) b t.

(** In every run handles and round numbers are fresh, a round in flight
    still waits for an outcome, and its results are built from its
    nodes. *)
Definition wellFormed (s : Main) : Prop :=
  (∀ t, t ∈ timers s → (handle t < nextHandle s)%nat)
  ∧ (∀ r rd, rounds s !! r = Some rd →
       (r < nextRound s)%nat ∧ statusResults rd = None ∧ Forall built (probes rd)).


Definition isStart (e : Event) : bool :=
  match e with CallStart _ _ => true | _ => false end.

(** The ids of the hosts a status message reports. *)
Definition ids (l : list JsObj) : list JsVal := (λ n, prop n "id") <$> l.

(** *** The renderer: uptime tracking in the [onStatus] listener *)

Record Tracker := { status : bool; since : Z }.

(** "Update uptime tracking" for one node; [dateNow] is what [Date.now()]
    returns when the tracker is written. *)
Definition updateTracker (uptimeTrackers : gmap string Tracker) (nodeId : string)
    (currentStatus : bool) (dateNow : Z) : gmap string Tracker :=
  match uptimeTrackers !! nodeId with
  | None => <[nodeId := {| status := currentStatus; since := dateNow |}]> uptimeTrackers
  | Some tracker =>
      if negb (Bool.eqb (status tracker) currentStatus)
      then <[nodeId := {| status := currentStatus; since := dateNow |}]> uptimeTrackers
      else uptimeTrackers
  end.

(** A tracker read as the script's state record. *)
Definition asHostState (t : Tracker) : Script.HostState :=
  {| Script.Status := status t; Script.ChangeTime := since t |}.

(** [Date.now() - (uptimeTrackers.get(node.id)?.since || Date.now())]: the
    first reading of the clock is [dateNow], the second, taken only when
    [since] is missing or [0], is [dateNow']. *)
Definition elapsed (uptimeTrackers : gmap string Tracker) (nodeId : string)
    (dateNow dateNow' : Z) : Z :=
  dateNow - match uptimeTrackers !! nodeId with
            | Some tracker => if since tracker =? 0 then dateNow' else since tracker
            | None => dateNow'
            end.

(** [renderTree]: the active parent shown for a node of a status message. *)
Definition nonEmpty (v : JsVal) : bool :=
  ToBoolean v && negb (bool_decide (v = JsStr "")).

Definition shownActiveParent (n : JsObj) : JsVal :=
  let primary := if nonEmpty (prop n "primaryParentId") then prop n "primaryParentId" else JsNull in
  if nonEmpty (prop n "activeParentId") then prop n "activeParentId" else primary.

End App.

(** ** The end-to-end scenario of the specification

    Three hosts: A without parent, B with primary A, C with primary A and
    secondary B; A does not answer, B and C do. *)

Module Scenario.

Definition host (i addr : string) (primary secondary : option string) : Script.Node :=
  {| Script.id := i; Script.name := Script.JStr i; Script.address := Some addr;
     Script.port := None;
     Script.primaryParentId := primary; Script.secondaryParentId := secondary;
     Script.icon := Script.JNull; Script.iconType := Script.JNull;
     Script.x := Script.JNull; Script.y := Script.JNull |}.

Definition hostA : Script.Node := host "A" "10.0.0.1" None None.
Definition hostB : Script.Node := host "B" "10.0.0.2" (Some "A") None.
Definition hostC : Script.Node := host "C" "10.0.0.3" (Some "A") (Some "B").

Definition net : Script.Network :=
  λ e, match e with
       | Script.PingSend a _ => negb (String.eqb a "10.0.0.1")
       | Script.TcpBeginConnect _ _ _ => false
       end.

(** The same hosts as node objects of the application. *)
Definition node (i addr : string) (primary secondary : App.JsVal) : App.JsObj :=
  {[ "id" := App.JsStr i; "name" := App.JsStr i; "address" := App.JsStr addr;
     "primaryParentId" := primary; "secondaryParentId" := secondary ]}.

Definition nodeA : App.JsObj := node "A" "10.0.0.1" App.JsNull App.JsNull.
Definition nodeB : App.JsObj := node "B" "10.0.0.2" (App.JsStr "A") App.JsNull.
Definition nodeC : App.JsObj := node "C" "10.0.0.3" (App.JsStr "A") (App.JsStr "B").

Definition env : App.Env :=
  {| App.isWindows := false;
     App.refusesPort := λ _, false;
     App.online := λ e, match e with
                        | App.Exec cmd => negb (String.eqb cmd "ping -c 1 -W 1 10.0.0.1")
                        | App.SocketConnect _ _ => false
                        end;
     App.took := λ _, 3;
     App.timeString := "12:00:00" |}.

Definition config : App.Config :=
  {| App.nodes := App.NodesArray [nodeA; nodeB; nodeC]; App.interval := App.JsNum 2000 |}.

(** What a published record says about a host. *)
Definition summary (r : Script.ResolvedHost) : string * bool * option string :=
  (Script.r_id r, Script.r_status r, Script.r_activeParentId r).

Definition expected : list (string * bool * option string) :=
  [("A", false, None); ("B", true, Some "A"); ("C", true, Some "B")].

Definition nodeSummary (n : App.JsObj) : App.JsVal * App.JsVal * App.JsVal * App.JsVal :=
  (App.prop n "id", App.prop n "status", App.prop n "activeParentId",
   App.shownActiveParent n).

(** Nodes with an empty address, with and without port, and a node
    without address property. *)
Definition noAddress : App.JsObj :=
  {[ "id" := App.JsStr "n1"; "address" := App.JsStr ""; "port" := App.JsNum 80 ]}.

Definition noAddressNoPort : App.JsObj :=
  {[ "id" := App.JsStr "n2"; "address" := App.JsStr "" ]}.

Definition addressMissing : App.JsObj :=
  {[ "id" := App.JsStr "n3" ]}.

Definition unaddressed : App.Config :=
  {| App.nodes := App.NodesArray [noAddress; noAddressNoPort; addressMissing];
     App.interval := App.JsUndefined |}.

(** A second configuration with another interval, and the first one with
    B removed. *)
Definition again : App.Config :=
  {| App.nodes := App.NodesArray [nodeA]; App.interval := App.JsNum 5000 |}.

Definition shrunk : App.Config :=
  {| App.nodes := App.NodesArray [nodeA; nodeC]; App.interval := App.JsNum 2000 |}.

(** [start] is invoked again while the first round of the first [start]
    still waits for its three outcomes; both rounds then end. *)
Definition overlapping : list App.Event :=
  ([App.CallStart env (Some config); App.CallStart env (Some again)]
   ++ App.settleAll env 0 3 ++ App.settleAll env 1 1)%list.

(** [stop] is invoked while [start] waits for its first round, which then
    ends. *)
Definition stoppedEarly : list App.Event :=
  ([App.CallStart env (Some config); App.CallStop] ++ App.settleAll env 0 3)%list.

(** The loop runs on A, B and C; its timer fires, and while that round
    waits [start] is invoked without B. *)
Definition replaced : list App.Event :=
  ([App.CallStart env (Some config)] ++ App.settleAll env 0 3
   ++ [App.TimerFires env 0; App.CallStart env (Some shrunk)])%list.

(** The first round of the new run ends, then the round of the timer. *)
Definition thereafter : list App.Event :=
  (App.settleAll env 2 2 ++ App.settleAll env 1 3)%list.

(** One [start] after the other, each with its outcomes, then [stop]
    twice. *)
Definition restarted : list App.Event :=
  ([App.CallStart env (Some config)] ++ App.settleAll env 0 3
   ++ [App.CallStart env (Some again)] ++ App.settleAll env 1 1
   ++ [App.CallStop; App.CallStop])%list.

(** A node whose port is no port number. *)
Definition outOfRange : App.JsObj :=
  {[ "id" := App.JsStr "n4"; "address" := App.JsStr "10.0.0.4";
     "port" := App.JsNum 70000 ]}.

(** The four resolver cases of the specification: a host with primary A
    and secondary B, one without parents, and the statuses of A and B. *)
Definition dual : Script.Node := host "H" "10.0.0.7" (Some "A") (Some "B").
Definition orphan : Script.Node := host "H" "10.0.0.7" None None.
Definition statusesAB (a b : bool) : gmap string bool := {[ "A" := a; "B" := b ]}.

End Scenario.

(** ** The renderer: status history and notifications *)

Module History.

(** One element of [history] and one value of the [statusHistory] map. *)
Record Entry := { e_status : bool; e_time : Z }.

Record NodeHistory := {
  lastStatus : bool;
  lastChange : Z;
  history : list Entry
}.

Definition MAX_HISTORY_ENTRIES : nat := 50.

(** [a.slice(-n)]: the last [n] elements. *)
Definition slice_last {A} (n : nat) (a : list A) : list A := drop (length a - n) a.

(** The toasts [trackStatusChange] shows, with title and message. *)
Inductive Toast :=
  | toastSuccess (title message : string)
  | toastError (title message : string).

(** A double quote, and the node name between double quotes as the
    template literals of the messages have it. *)
Definition dquote : string := String (Ascii.ascii_of_nat 34) EmptyString.

Definition quoted (nodeName : App.JsVal) : string :=
  dquote +:+ App.ToString nodeName +:+ dquote.

(** [trackStatusChange(nodeId, nodeName, newStatus)]; [now] is the reading
    of [Date.now()] at its first line.  The result is the map after the
    call and the toasts shown. *)
Definition trackStatusChange (statusHistory : gmap string NodeHistory) (nodeId : string)
    (nodeName : App.JsVal) (newStatus : bool) (now : Z)
    : gmap string NodeHistory * list Toast :=
  match statusHistory !! nodeId with
  | None =>
      (<[nodeId := {| lastStatus := newStatus; lastChange := now;
                      history := [{| e_status := newStatus; e_time := now |}] |}]>
         statusHistory, [])
  | Some nodeHistory =>
      if negb (Bool.eqb (lastStatus nodeHistory) newStatus) then
        let pushed := (history nodeHistory ++ [{| e_status := newStatus; e_time := now |}])%list in
        let kept := if decide (MAX_HISTORY_ENTRIES < length pushed)%nat
                    then slice_last MAX_HISTORY_ENTRIES pushed else pushed in
        let toast := if newStatus
                     then toastSuccess "Node Online" (quoted nodeName +:+ " is now online")
                     else toastError "Node Offline" (quoted nodeName +:+ " went offline") in
        (<[nodeId := {| lastStatus := newStatus; lastChange := now; history := kept |}]>
           statusHistory, [toast])
      else (statusHistory, [])
  end.

(** [getNodeStatusHistory(nodeId)] *)
Definition getNodeStatusHistory (statusHistory : gmap string NodeHistory) (nodeId : string)
    : option NodeHistory := statusHistory !! nodeId.

(** [formatStatusHistory(nodeId)]: the lines joined by newlines in the
    source; [timeLabel] is [toLocaleTimeString] and [online], [offline] are
    the two status labels. *)
Definition formatStatusHistory (timeLabel : Z → string) (online offline : string)
    (statusHistory : gmap string NodeHistory) (nodeId : string) : list string :=
  match statusHistory !! nodeId with
  | None => ["No history available"]
  | Some h =>
      match history h with
      | [] => ["No history available"]
      | _ =>
          (λ entry, timeLabel (e_time entry) +:+ ": "
                    +:+ (if e_status entry then online else offline))
            <$> reverse (slice_last 5 (history h))
      end
  end.

(** [getLastStatusChange(nodeId)]; [now] is the reading of [Date.now()]. *)
Record LastChange := { lc_status : bool; lc_since : Z; lc_duration : string }.

Definition getLastStatusChange (statusHistory : gmap string NodeHistory) (nodeId : string)
    (now : Z) : option LastChange :=
  h ← statusHistory !! nodeId;
  Some {| lc_status := lastStatus h; lc_since := lastChange h;
          lc_duration := Duration.formatDuration (now - lastChange h) |}.

(** A status seen for a node, with the clock reading of the call. *)
Record Seen := { seen_id : string; seen_name : App.JsVal; seen_status : bool; seen_at : Z }.

Definition track (acc : gmap string NodeHistory * list Toast) (o : Seen)
    : gmap string NodeHistory * list Toast :=
  let r := trackStatusChange (fst acc) (seen_id o) (seen_name o) (seen_status o) (seen_at o) in
  (fst r, (snd acc ++ snd r)%list).

(** The map and the toasts after a sequence of calls, oldest first. *)
Definition trackAll (os : list Seen) : gmap string NodeHistory * list Toast :=
  foldl track (∅, []) os.

(** The status changes of one node in a sequence of calls: the first
    status seen and then every status that differs from the one seen
    before. *)
Fixpoint changesFrom (prev : option bool) (nodeId : string) (os : list Seen) : list Entry :=
  match os with
  | [] => []
  | o :: rest =>
      if decide (seen_id o = nodeId) then
        if decide (prev = Some (seen_status o))
        then changesFrom prev nodeId rest
        else {| e_status := seen_status o; e_time := seen_at o |}
             :: changesFrom (Some (seen_status o)) nodeId rest
      else changesFrom prev nodeId rest
  end.

Definition changes (nodeId : string) (os : list Seen) : list Entry :=
  changesFrom None nodeId os.

(** The status a node is known to have after some calls. *)
Definition current (prev : option bool) (nodeId : string) (os : list Seen) : option bool :=
  match last (changesFrom prev nodeId os) with
  | Some e => Some (e_status e)
  | None => prev
  end.

(** What the map holds for a node: nothing before its first call, then the
    last [MAX_HISTORY_ENTRIES] of its status changes, with the latest
    change as [lastStatus] and [lastChange]. *)
Definition recorded (nodeId : string) (os : list Seen) : option NodeHistory :=
  match last (changes nodeId os) with
  | None => None
  | Some e => Some {| lastStatus := e_status e; lastChange := e_time e;
                      history := slice_last MAX_HISTORY_ENTRIES (changes nodeId os) |}
  end.

(** Successive entries of a list have different statuses. *)
Definition alternating (l : list Entry) : Prop :=
  ∀ (i : nat) e e', l !! i = Some e → l !! S i = Some e' → e_status e ≠ e_status e'.

(** The toast of a change to [newStatus]. *)
Definition changeToast (nodeName : App.JsVal) (newStatus : bool) : Toast :=
  if newStatus
  then toastSuccess "Node Online" (quoted nodeName +:+ " is now online")
  else toastError "Node Offline" (quoted nodeName +:+ " went offline").

(** *** The part of the [onStatus] listener that tracks one node: the
    uptime tracker is updated, the uptime string computed, and the status
    history updated.  The clock is read up to four times, in this order. *)
Record Readings := {
  at_write : Z;
  at_elapsed : Z;
  at_elapsed' : Z;
  at_history : Z
}.

Record Panel := {
  uptimeTrackers : gmap string App.Tracker;
  statusHistory : gmap string NodeHistory
}.

Record Update := { u_id : string; u_name : App.JsVal; u_status : bool; u_clock : Readings }.

Definition onStatusNode (p : Panel) (u : Update) : Panel * string * list Toast :=
  let trackers := App.updateTracker (uptimeTrackers p) (u_id u) (u_status u)
                    (at_write (u_clock u)) in
  let uptime := Duration.formatDuration
                  (App.elapsed trackers (u_id u) (at_elapsed (u_clock u))
                     (at_elapsed' (u_clock u))) in
  let tracked := trackStatusChange (statusHistory p) (u_id u) (u_name u) (u_status u)
                   (at_history (u_clock u)) in
  ({| uptimeTrackers := trackers; statusHistory := fst tracked |}, uptime, snd tracked).

Definition onStatusNodes (us : list Update) : Panel :=
  foldl (λ p u, fst (fst (onStatusNode p u))) {| uptimeTrackers := ∅; statusHistory := ∅ |} us.

End History.

(** ** The renderer: input validation

    A JavaScript string is a sequence of code units; the strings here have
    code units below 256.  Numbers are integers, [NaN] is [None]. *)

Module Validation.

Definition code (c : Ascii.ascii) : Z := Z.of_N (Ascii.N_of_ascii c).

(** The white space [parseInt] skips: tab, line feed, vertical tab, form
    feed, carriage return, space and no-break space. *)
Definition isStrWhiteSpace (c : Ascii.ascii) : bool :=
  let n := code c in ((9 <=? n) && (n <=? 13)) || (n =? 32) || (n =? 160).

Fixpoint trimStart (s : string) : string :=
  match s with
  | String c r => if isStrWhiteSpace c then trimStart r else s
  | EmptyString => EmptyString
  end.

(** The value of a digit character: [0-9], then [a-z] and [A-Z] from 10. *)
Definition digitOf (c : Ascii.ascii) : option Z :=
  let n := code c in
  if (48 <=? n) && (n <=? 57) then Some (n - 48)
  else if (97 <=? n) && (n <=? 122) then Some (n - 87)
  else if (65 <=? n) && (n <=? 90) then Some (n - 55)
  else None.

(** The value of the longest prefix of radix-[R] digits; [acc] is the value
    read so far, [None] when no digit was read. *)
Fixpoint digits (R : Z) (s : string) (acc : option Z) : option Z :=
  match s with
  | String c r =>
      match digitOf c with
      | Some d => if d <? R then digits R r (Some (default 0 acc * R + d)) else acc
      | None => acc
      end
  | EmptyString => acc
  end.

Definition hasHexPrefix (s : string) : bool :=
  match s with
  | String c (String x _) => (code c =? 48) && ((code x =? 120) || (code x =? 88))
  | _ => false
  end.

Definition drop2 (s : string) : string :=
  match s with
  | String _ (String _ r) => r
  | _ => s
  end.

(** [parseInt(string, radix)]; a missing radix is [0]. *)
Definition parseInt (s : string) (radix : Z) : option Z :=
  let S := trimStart s in
  let sign := match S with String c _ => if code c =? 45 then -1 else 1 | _ => 1 end in
  let S := match S with
           | String c r => if (code c =? 43) || (code c =? 45) then r else S
           | _ => S
           end in
  if negb (radix =? 0) && ((radix <? 2) || (36 <? radix)) then None
  else
    let stripPrefix := (radix =? 0) || (radix =? 16) in
    let R := if radix =? 0 then 10 else radix in
    let hex := stripPrefix && hasHexPrefix S in
    let R := if hex then 16 else R in
    let S := if hex then drop2 S else S in
    (λ v, sign * v) <$> digits R S None.

(** [s.split('.')] *)
Fixpoint split (sep : Ascii.ascii) (s : string) : list string :=
  match s with
  | EmptyString => [EmptyString]
  | String c r =>
      if Ascii.eqb c sep then EmptyString :: split sep r
      else match split sep r with
           | h :: t => String c h :: t
           | [] => [String c EmptyString]
           end
  end.

Definition dot : Ascii.ascii := Ascii.ascii_of_nat 46.

(** [isValidIP(ip)] *)
Definition validOctet (part : string) : bool :=
  match parseInt part 10 with
  | None => false
  | Some num => (0 <=? num) && (num <=? 255) && String.eqb part (pretty num)
  end.

Definition isValidIP (ip : string) : bool :=
  if String.eqb ip EmptyString then false
  else
    let parts := split dot ip in
    if negb (length parts =? 4)%nat then false
    else forallb validOctet parts.

(** [isValidPort(port)] *)
Definition isValidPort (port : string) : bool :=
  match parseInt port 10 with
  | None => false
  | Some num => (1 <=? num) && (num <=? 65535)
  end.

(** What [saveNode] does with the text of a port field: the node is not
    saved when the text is not empty and not a valid port; otherwise the
    stored value is [parseInt(port)], or the default for an empty text
    ([null] for the port, [22] for the SSH port). *)
Definition storedPort (text : string) (default : option Z) : option (option Z) :=
  if negb (String.eqb text EmptyString) && negb (isValidPort text) then None
  else Some (if negb (String.eqb text EmptyString) then parseInt text 0 else default).

(** An address in dotted decimal. *)
Definition dotted (a b c d : Z) : string :=
  pretty a +:+ "." +:+ pretty b +:+ "." +:+ pretty c +:+ "." +:+ pretty d.

(** Decimal digit characters and strings made of them. *)
Definition isDigit (c : Ascii.ascii) : bool := (48 <=? code c) && (code c <=? 57).

Fixpoint allDigits (s : string) : bool :=
  match s with
  | String c r => isDigit c && allDigits r
  | EmptyString => true
  end.

Definition startsWithDigit (s : string) : bool :=
  match s with
  | String c _ => isDigit c
  | EmptyString => false
  end.

End Validation.

(** * Properties *)

(** ** Duration formatting *)

Section DurationArith.

Import Duration.

(** The components the code obtains by successive division are the floors
    of what remains once the larger unit is taken out. *)
Lemma div_div_units (a b c : Z) : 0 < b → 0 < c → a / b / c = a / (c * b).
Proof. intros Hb Hc. rewrite Z.div_div by lia. f_equal. lia. Qed.

Lemma rem_is_floor_of_rest (a b c : Z) :
  0 ≤ a → 0 < b → 0 < c →
  Z.rem (a / b) c = (a - a / (c * b) * (c * b)) / b.
Proof.
  intros Ha Hb Hc.
  rewrite Z.rem_mod_nonneg by (try apply Z.div_pos; lia).
  replace (a - a / (c * b) * (c * b)) with (a mod (b * c)).
  - rewrite Z.rem_mul_r by lia.
    rewrite (Z.mul_comm b), Z.div_add by lia.
    rewrite (Z.div_small (a mod b)) by (apply Z.mod_pos_bound; lia).
    lia.
  - rewrite (Z.mul_comm b c). pose proof (Z.div_mod a (c * b)). lia.
Qed.

Lemma quot_ticks (d u : Z) :
  0 ≤ d → 0 < u → Z.quot (d * TicksPerMillisecond) (u * TicksPerMillisecond) = d / u.
Proof.
  intros Hd Hu. unfold TicksPerMillisecond.
  rewrite Z.quot_div_nonneg by lia.
  apply Z.div_mul_cancel_r; lia.
Qed.

Lemma formatDuration_policy (d : Z) : 0 ≤ d → formatDuration d = bucket_policy d.
Proof.
  intros Hd. unfold formatDuration, bucket_policy, two_units.
  assert (Hs : (d / 1000 <? 60) = (d <? msPerMinute)).
  { unfold msPerMinute, msPerSecond.
    destruct (Z.ltb_spec (d / 1000) 60), (Z.ltb_spec d (60 * 1000)); try reflexivity.
    - pose proof (Z.div_le_mono (60 * 1000) d 1000). 
      rewrite Z.div_mul in *; lia.
    - pose proof (Z.div_lt_upper_bound d 1000 60). lia. }
  rewrite Hs. destruct (d <? msPerMinute) eqn:E1; [reflexivity|].
  rewrite (div_div_units d 1000 60) by lia.
  assert (Hm : (d / (60 * 1000) <? 60) = (d <? msPerHour)).
  { unfold msPerHour, msPerMinute, msPerSecond.
    destruct (Z.ltb_spec (d / (60 * 1000)) 60), (Z.ltb_spec d (60 * (60 * 1000))); try reflexivity.
    - pose proof (Z.div_le_mono (60 * (60 * 1000)) d (60 * 1000)).
      rewrite Z.div_mul in *; lia.
    - pose proof (Z.div_lt_upper_bound d (60 * 1000) 60). lia. }
  rewrite Hm. destruct (d <? msPerHour) eqn:E2.
  { rewrite (rem_is_floor_of_rest d 1000 60) by lia. reflexivity. }
  rewrite (div_div_units d (60 * 1000) 60) by lia.
  assert (Hh : (d / (60 * (60 * 1000)) <? 24) = (d <? msPerDay)).
  { unfold msPerDay, msPerHour, msPerMinute, msPerSecond.
    destruct (Z.ltb_spec (d / (60 * (60 * 1000))) 24),
             (Z.ltb_spec d (24 * (60 * (60 * 1000)))); try reflexivity.
    - pose proof (Z.div_le_mono (24 * (60 * (60 * 1000))) d (60 * (60 * 1000))).
      rewrite Z.div_mul in *; lia.
    - pose proof (Z.div_lt_upper_bound d (60 * (60 * 1000)) 24). lia. }
  rewrite Hh. destruct (d <? msPerDay) eqn:E3.
  { rewrite (rem_is_floor_of_rest d (60 * 1000) 60) by lia. reflexivity. }
  rewrite (div_div_units d (60 * (60 * 1000)) 24) by lia.
  rewrite (rem_is_floor_of_rest d (60 * (60 * 1000)) 24) by lia. reflexivity.
Qed.

Lemma div_small_unit (d u n : Z) : 0 ≤ d → 0 < u → 0 < n → d < n * u → Z.rem (d / u) n = d / u.
Proof.
  intros Hd Hu Hn Hlt. apply Z.rem_small. split.
  - apply Z.div_pos; lia.
  - apply Z.div_lt_upper_bound; lia.
Qed.

Lemma Days_ms (d : Z) : 0 ≤ d → Days (FromMilliseconds d) = d / msPerDay.
Proof. intros Hd. apply (quot_ticks d msPerDay); [done | reflexivity]. Qed.

Lemma Hours_ms (d : Z) : 0 ≤ d → Hours (FromMilliseconds d) = Z.rem (d / msPerHour) 24.
Proof.
  intros Hd. unfold Hours. f_equal. apply (quot_ticks d msPerHour); [done | reflexivity].
Qed.

Lemma Minutes_ms (d : Z) : 0 ≤ d → Minutes (FromMilliseconds d) = Z.rem (d / msPerMinute) 60.
Proof.
  intros Hd. unfold Minutes. f_equal. apply (quot_ticks d msPerMinute); [done | reflexivity].
Qed.

Lemma Seconds_ms (d : Z) : 0 ≤ d → Seconds (FromMilliseconds d) = Z.rem (d / msPerSecond) 60.
Proof.
  intros Hd. unfold Seconds. f_equal. apply (quot_ticks d msPerSecond); [done | reflexivity].
Qed.

Lemma Total_ge_1_ms (d u : Z) :
  (u * TicksPerMillisecond <=? Ticks (FromMilliseconds d)) = negb (d <? u).
Proof.
  unfold FromMilliseconds, TicksPerMillisecond. simpl.
  destruct (Z.leb_spec (u * 10000) (d * 10000)), (Z.ltb_spec d u); simpl; lia.
Qed.

Lemma Get_DurationString_below_day (d : Z) :
  0 ≤ d → d < msPerDay → Get_DurationString (FromMilliseconds d) = bucket_policy d.
Proof.
  intros Hd Hday. unfold Get_DurationString, bucket_policy, two_units.
  unfold TotalDays_ge_1, TotalHours_ge_1, TotalMinutes_ge_1.
  change TicksPerDay with (msPerDay * TicksPerMillisecond).
  change TicksPerHour with (msPerHour * TicksPerMillisecond).
  change TicksPerMinute with (msPerMinute * TicksPerMillisecond).
  rewrite !Total_ge_1_ms, Hours_ms, Minutes_ms, Seconds_ms by done.
  destruct (Z.ltb_spec d msPerDay) as [_|]; [simpl | lia].
  destruct (Z.ltb_spec d msPerHour) as [Hh|Hh]; simpl.
  - destruct (Z.ltb_spec d msPerMinute) as [Hm|Hm]; simpl.
    + rewrite (div_small_unit d msPerSecond 60) by (done || reflexivity). reflexivity.
    + rewrite (div_small_unit d msPerMinute 60) by (done || reflexivity).
      rewrite (rem_is_floor_of_rest d msPerSecond 60) by (done || reflexivity).
      reflexivity.
  - assert (msPerMinute ≤ msPerHour) by (vm_compute; discriminate).
    destruct (Z.ltb_spec d msPerMinute) as [Hm|Hm]; [lia|].
    rewrite (div_small_unit d msPerHour 24) by (done || reflexivity).
    rewrite (rem_is_floor_of_rest d msPerMinute 60) by (done || reflexivity).
    reflexivity.
Qed.

Lemma rest_of_rest (d u n : Z) :
  0 < u → 0 < n →
  let r := d - d / (n * u) * (n * u) in
  r - r / u * u = d - d / u * u.
Proof.
  intros Hu Hn r.
  assert (Hr : r = d mod (u * n)).
  { subst r. rewrite (Z.mul_comm n u). pose proof (Z.div_mod d (u * n)). lia. }
  assert (Hrr : r mod u = d mod u).
  { rewrite Hr, Z.rem_mul_r by lia.
    rewrite (Z.mul_comm u), Z.mod_add by lia. apply Z.mod_mod. lia. }
  pose proof (Z.div_mod r u). pose proof (Z.div_mod d u). lia.
Qed.

Lemma Get_DurationString_from_day (d : Z) :
  msPerDay ≤ d → Get_DurationString (FromMilliseconds d) = three_units d.
Proof.
  intros Hday.
  assert (Hd : 0 ≤ d) by (assert (0 ≤ msPerDay) by (vm_compute; discriminate); lia).
  unfold Get_DurationString, three_units, TotalDays_ge_1.
  change TicksPerDay with (msPerDay * TicksPerMillisecond).
  rewrite Total_ge_1_ms, Days_ms, Hours_ms, Minutes_ms by done.
  destruct (Z.ltb_spec d msPerDay) as [|_]; [lia | simpl].
  rewrite (rem_is_floor_of_rest d msPerHour 24) by (done || reflexivity).
  rewrite (rem_is_floor_of_rest d msPerMinute 60) by (done || reflexivity).
  change (24 * msPerHour) with msPerDay. change (60 * msPerMinute) with msPerHour.
  pose proof (rest_of_rest d msPerHour 24) as Hrest. simpl in Hrest.
  change (24 * msPerHour) with msPerDay in Hrest.
  rewrite Hrest by reflexivity. reflexivity.
Qed.

(** Below the millisecond the tick count does not matter. *)
Lemma Get_DurationString_whole_ms (t : Z) :
  0 ≤ t →
  Get_DurationString {| Ticks := t |}
  = Get_DurationString (FromMilliseconds (t / TicksPerMillisecond)).
Proof.
  intros Ht.
  assert (Hq : ∀ u, 0 < u →
    Z.quot t (u * TicksPerMillisecond)
    = Z.quot (t / TicksPerMillisecond * TicksPerMillisecond) (u * TicksPerMillisecond)).
  { intros u Hu. unfold TicksPerMillisecond.
    rewrite !Z.quot_div_nonneg by (try apply Z.mul_nonneg_nonneg; try apply Z.div_pos; lia).
    rewrite Z.div_mul_cancel_r by lia.
    rewrite (Z.mul_comm u), <- Z.div_div by lia. reflexivity. }
  assert (Hge : ∀ u, (u * TicksPerMillisecond <=? t)
                     = (u * TicksPerMillisecond <=? t / TicksPerMillisecond * TicksPerMillisecond)).
  { intros u. unfold TicksPerMillisecond.
    pose proof (Z.div_mod t 10000). pose proof (Z.mod_pos_bound t 10000).
    destruct (Z.leb_spec (u * 10000) t), (Z.leb_spec (u * 10000) (t / 10000 * 10000));
      try reflexivity; lia. }
  unfold Get_DurationString, TotalDays_ge_1, TotalHours_ge_1, TotalMinutes_ge_1,
    Days, Hours, Minutes, Seconds, FromMilliseconds. simpl.
  change TicksPerDay with (msPerDay * TicksPerMillisecond).
  change TicksPerHour with (msPerHour * TicksPerMillisecond).
  change TicksPerMinute with (msPerMinute * TicksPerMillisecond).
  change TicksPerSecond with (msPerSecond * TicksPerMillisecond).
  rewrite <- !Hge, <- !Hq by reflexivity. reflexivity.
Qed.

End DurationArith.

(** C2 (amended). For every non-negative duration of [d] milliseconds, the
    renderer's [formatDuration] follows the bucketing policy: at most two
    units, every component the floor of the remaining span.  The script's
    [Get-DurationString] follows the same policy below 24 hours; from 24
    hours on it prints three units, days, hours and minutes.  The policy
    maps 59000 to 59s, 60000 to 1m 0s, 3661000 to 1h 1m and 90000000 to
    1d 1h. *)
Theorem duration_bucketing (d : Z) :
  0 ≤ d →
  Duration.formatDuration d = Duration.bucket_policy d
  ∧ (d < Duration.msPerDay →
     Duration.Get_DurationString (Duration.FromMilliseconds d) = Duration.bucket_policy d)
  ∧ (Duration.msPerDay ≤ d →
     Duration.Get_DurationString (Duration.FromMilliseconds d) = Duration.three_units d)
  ∧ Duration.bucket_policy 59000 = "59s"
  ∧ Duration.bucket_policy 60000 = "1m 0s"
  ∧ Duration.bucket_policy 3661000 = "1h 1m"
  ∧ Duration.bucket_policy 90000000 = "1d 1h".
Proof.
  intros Hd. split; [by apply formatDuration_policy|].
  split; [by apply Get_DurationString_below_day|].
  split; [by apply Get_DurationString_from_day|].
  repeat split; vm_compute; reflexivity.
Qed.

Lemma duration_bucketing_witness :
  0 ≤ 90000000
  ∧ Duration.formatDuration 90000000 = "1d 1h"
  ∧ Duration.Get_DurationString (Duration.FromMilliseconds 90000000) = "1d 1h 0m".
Proof.
  assert (H : 0 ≤ 90000000) by lia.
  split; [exact H|].
  destruct (duration_bucketing 90000000 H) as (Hjs & _ & Hps & _).
  split.
  - rewrite Hjs. vm_compute. reflexivity.
  - rewrite Hps by (vm_compute; discriminate). vm_compute. reflexivity.
Defined.

(** C2 as stated fails on the script: one day and one hour is printed
    with a third unit. *)
Lemma Get_DurationString_third_unit :
  Duration.Get_DurationString (Duration.FromMilliseconds 90000000) = "1d 1h 0m"
  ∧ Duration.Get_DurationString (Duration.FromMilliseconds 90000000)
    ≠ Duration.bucket_policy 90000000.
Proof. split; [vm_compute; reflexivity | vm_compute; discriminate]. Qed.


(** ** Failover resolution *)

Section Failover.

Import Script.

Implicit Types (statuses : gmap string bool) (entry : Node).

Lemma truthy_Some (s : string) : truthy (Some s) = true ↔ s ≠ "".
Proof.
  simpl. destruct (String.eqb_spec s ""); simpl; split; intros; congruence.
Qed.

Lemma parentUp_true statuses (v : option string) :
  parentUp statuses v = true ↔ reachable statuses v.
Proof.
  unfold parentUp, reachable. destruct v as [p|].
  - split.
    + destruct (truthy (Some p)) eqn:Ht; simpl; [|discriminate].
      apply truthy_Some in Ht.
      case_bool_decide as Hin; [|discriminate].
      destruct Hin as [b Hb]. rewrite Hb. simpl. intros ->. eauto.
    + intros (a & [= <-] & Hne & Hup).
      apply truthy_Some in Hne. rewrite Hne, Hup.
      rewrite bool_decide_eq_true_2 by eauto. reflexivity.
  - split; [discriminate | intros (a & [=] & _)].
Qed.

Lemma parentUp_false statuses (v : option string) :
  parentUp statuses v = false ↔ ¬ reachable statuses v.
Proof.
  rewrite <- parentUp_true. destruct (parentUp statuses v); split; congruence.
Qed.

Lemma parentUp_absent statuses (k : string) (v : option string) :
  statuses !! k = None → parentUp (<[k := false]> statuses) v = parentUp statuses v.
Proof.
  intros Hk. unfold parentUp. destruct v as [p|]; [|reflexivity].
  destruct (decide (k = p)) as [->|Hne].
  - rewrite lookup_insert_eq, Hk.
    by destruct (truthy _), (bool_decide _), (bool_decide _).
  - by rewrite lookup_insert_ne.
Qed.

Lemma normalizeParent_unset (v : option string) :
  ¬ isSet v → normalizeParent v = None.
Proof.
  intros Hv. unfold normalizeParent. destruct v as [s|]; [|reflexivity].
  destruct (truthy (Some s)) eqn:Ht; [|reflexivity].
  apply truthy_Some in Ht. exfalso. apply Hv. by exists s.
Qed.

End Failover.

(** C1. The failover block resolves to the primary parent when it is set
    and the statuses map gives it [true]; otherwise to the secondary parent
    when that is set and up; otherwise to the primary parent, whatever its
    state.  With neither parent set the result is [$null]; this covers a
    configured host whose parent fields are missing or empty.  An id absent
    from the map counts as down: adding it with status [false] changes
    nothing, and the resolution is a total function. *)
Theorem resolveActiveParent_policy (entry : Script.Node) (statuses : gmap string bool) :
  let primary := Script.primaryParentId entry in
  let secondary := Script.secondaryParentId entry in
  let active := Script.resolveActiveParent entry statuses in
  (Script.reachable statuses primary → active = primary)
  ∧ (¬ Script.reachable statuses primary → Script.reachable statuses secondary →
     active = secondary)
  ∧ (¬ Script.reachable statuses primary → ¬ Script.reachable statuses secondary →
     active = primary)
  ∧ (primary = None → secondary = None → active = None)
  ∧ (∀ cast raw, Script.normalizeNode cast raw = Some entry →
     ¬ Script.isSet (Script.raw_primaryParentId raw) →
     ¬ Script.isSet (Script.raw_secondaryParentId raw) → active = None)
  ∧ (∀ k, statuses !! k = None →
     Script.resolveActiveParent entry (<[k := false]> statuses) = active).
Proof.
  simpl. unfold Script.resolveActiveParent.
  repeat split.
  - intros Hp. apply parentUp_true in Hp. by rewrite Hp.
  - intros Hp Hs. apply parentUp_false in Hp. apply parentUp_true in Hs.
    by rewrite Hp, Hs.
  - intros Hp Hs. apply parentUp_false in Hp, Hs. by rewrite Hp, Hs.
  - intros -> ->. reflexivity.
  - intros cast raw Hn Hp Hs. unfold Script.normalizeNode in Hn.
    destruct (Script.normalizePort cast (Script.raw_port raw)); simplify_eq/=.
    rewrite !normalizeParent_unset by done. reflexivity.
  - intros k Hk. by rewrite !parentUp_absent.
Qed.

(** The resolver cases of the specification: primary up and secondary
    down gives the primary; primary down and secondary up gives the
    secondary; both down gives the primary; no parent gives null. *)
Example resolver_cases :
  Script.resolveActiveParent Scenario.dual (Scenario.statusesAB true false) = Some "A"
  ∧ Script.resolveActiveParent Scenario.dual (Scenario.statusesAB false true) = Some "B"
  ∧ Script.resolveActiveParent Scenario.dual (Scenario.statusesAB false false) = Some "A"
  ∧ Script.resolveActiveParent Scenario.dual ∅ = Some "A"
  ∧ Script.resolveActiveParent Scenario.orphan (Scenario.statusesAB true true) = None.
Proof. repeat split; vm_compute; reflexivity. Qed.

(** ** State tracking *)

Section Tracker.

Import Script.

Implicit Types (stateStore : gmap string HostState) (os : list Observation).

Lemma trackState_first stateStore i isUp now :
  stateStore !! i = None →
  trackState stateStore i isUp now !! i = Some {| Status := isUp; ChangeTime := now |}.
Proof. intros H. unfold trackState. rewrite H. apply lookup_insert_eq. Qed.

Lemma trackState_flip stateStore i isUp now st :
  stateStore !! i = Some st → Status st = negb isUp →
  trackState stateStore i isUp now !! i = Some {| Status := isUp; ChangeTime := now |}.
Proof.
  intros H Hst. unfold trackState. rewrite H, Hst.
  destruct isUp; simpl; apply lookup_insert_eq.
Qed.

Lemma trackState_same stateStore i isUp now st :
  stateStore !! i = Some st → Status st = isUp →
  trackState stateStore i isUp now = stateStore.
Proof.
  intros H Hst. unfold trackState. rewrite H, Hst. by destruct isUp.
Qed.

Lemma trackState_other stateStore i j isUp now :
  i ≠ j → trackState stateStore i isUp now !! j = stateStore !! j.
Proof.
  intros Hne. unfold trackState.
  destruct (stateStore !! i) as [st|]; [destruct (negb _)|];
    by rewrite ?lookup_insert_ne.
Qed.

(** After any update the stored status is the observed one. *)
Lemma trackState_status stateStore i isUp now :
  Status <$> trackState stateStore i isUp now !! i = Some isUp.
Proof.
  destruct (stateStore !! i) as [st|] eqn:H.
  - destruct (Bool.eqb (Status st) isUp) eqn:E.
    + apply Bool.eqb_prop in E. rewrite (trackState_same _ _ _ _ st), H by done.
      simpl. by rewrite E.
    + rewrite (trackState_flip _ _ _ _ st); [done..|].
      destruct (Status st), isUp; done.
  - by rewrite trackState_first.
Qed.

Lemma observeAll_snoc os o : observeAll (os ++ [o]) = observe (observeAll os) o.
Proof. unfold observeAll. by rewrite foldl_app. Qed.

Lemma previous_snoc i os o :
  previous i (os ++ [o]) = if decide (obs_id o = i) then Some o else previous i os.
Proof.
  unfold previous. rewrite filter_app, filter_cons, filter_nil.
  case_decide.
  - by rewrite last_snoc.
  - by rewrite app_nil_r.
Qed.

(** The store remembers, for each id, the status of its previous
    observation, and nothing for an id never observed. *)
Lemma observeAll_previous os i :
  Status <$> observeAll os !! i = obs_status <$> previous i os.
Proof.
  induction os as [|o os IH] using rev_ind; [done|].
  rewrite observeAll_snoc, previous_snoc. unfold observe.
  case_decide as Hid.
  - subst i. apply trackState_status.
  - by rewrite trackState_other.
Qed.

End Tracker.

Section RendererTracker.

Import App.

Lemma updateTracker_trackState (uptimeTrackers : gmap string Tracker) nodeId currentStatus dateNow :
  asHostState <$> updateTracker uptimeTrackers nodeId currentStatus dateNow
  = Script.trackState (asHostState <$> uptimeTrackers) nodeId currentStatus dateNow.
Proof.
  unfold updateTracker, Script.trackState. rewrite lookup_fmap.
  destruct (uptimeTrackers !! nodeId) as [t|]; simpl.
  - destruct (negb _); [|done]. by rewrite fmap_insert.
  - by rewrite fmap_insert.
Qed.

(** In the renderer the duration shown at a first observation is the
    difference of two readings of the clock. *)
Lemma elapsed_first_observation (uptimeTrackers : gmap string Tracker) nodeId s t t' t'' :
  uptimeTrackers !! nodeId = None → t ≠ 0 →
  elapsed (updateTracker uptimeTrackers nodeId s t) nodeId t' t'' = t' - t.
Proof.
  intros H Ht. unfold elapsed, updateTracker. rewrite H, lookup_insert_eq. simpl.
  destruct (Z.eqb_spec t 0); [done | reflexivity].
Qed.

End RendererTracker.

(** C3. Feed the state tracker any sequence of observations and then one
    more, of status [isUp] for id [i] at time [now].  If [i] was never
    observed, its state is created from this observation and the duration
    is zero.  If the previous observation of [i] had the other status,
    status and timestamp are both set from this observation.  If it had the
    same status, the store is left as it is.  So the timestamp of [i]
    changes only when the status flips relative to the previous observation
    of [i]; other ids are not touched.  The renderer's tracker makes the
    same update. *)
Theorem state_tracker_transitions (os : list Script.Observation) (i : string)
    (isUp : bool) (now : Z) :
  let before := Script.observeAll os in
  let after := Script.observeAll (os ++ [Script.Build_Observation i isUp now]) in
  let fresh := {| Script.Status := isUp; Script.ChangeTime := now |} in
  (Script.previous i os = None →
     before !! i = None ∧ after !! i = Some fresh
     ∧ Duration.Ticks (Script.durationSpan after i now) = 0)
  ∧ (Script.obs_status <$> Script.previous i os = Some (negb isUp) →
     after !! i = Some fresh)
  ∧ (Script.obs_status <$> Script.previous i os = Some isUp →
     after = before)
  ∧ (∀ st st', before !! i = Some st → after !! i = Some st' →
     Script.ChangeTime st' ≠ Script.ChangeTime st →
     Script.obs_status <$> Script.previous i os = Some (negb isUp))
  ∧ (∀ j, j ≠ i → after !! j = before !! j)
  ∧ (∀ uptimeTrackers : gmap string App.Tracker,
     App.asHostState <$> App.updateTracker uptimeTrackers i isUp now
     = Script.trackState (App.asHostState <$> uptimeTrackers) i isUp now).
Proof.
  simpl. rewrite observeAll_snoc. unfold Script.observe. simpl.
  pose proof (observeAll_previous os i) as Hprev.
  split; [|repeat split].
  - intros Hnone. rewrite Hnone in Hprev.
    assert (Habs : Script.observeAll os !! i = None)
      by (by destruct (Script.observeAll os !! i)).
    split; [done|]. split; [by apply trackState_first|].
    unfold Script.durationSpan. rewrite trackState_first by done. simpl. lia.
  - intros Hflip. rewrite Hflip in Hprev.
    destruct (Script.observeAll os !! i) as [st|] eqn:Hst; [|done].
    apply (trackState_flip _ _ _ _ st); [done|]. by injection Hprev.
  - intros Hsame. rewrite Hsame in Hprev.
    destruct (Script.observeAll os !! i) as [st|] eqn:Hst; [|done].
    apply (trackState_same _ _ _ _ st); [done|]. by injection Hprev.
  - intros st st' Hst Hst' Hneq. rewrite <- Hprev, Hst. simpl. f_equal.
    destruct (Bool.eqb (Script.Status st) isUp) eqn:E.
    + apply Bool.eqb_prop in E.
      rewrite (trackState_same _ _ _ _ st) in Hst' by done. congruence.
    + destruct (Script.Status st), isUp; done.
  - intros j Hj. by apply trackState_other.
  - intros. apply updateTracker_trackState.
Qed.

(** The run of the specification: observations true, true, false, false,
    true of one host at 0s, 10s, 20s, 30s and 40s.  The timestamp becomes
    20s at the third and 40s at the fifth observation, and at 45s the
    duration reads 5s. *)
Example tracker_run :
  let s := Duration.TicksPerSecond in
  let o b t := Script.Build_Observation "h" b (t * s) in
  let os := [o true 0; o true 10; o false 20; o false 30; o true 40] in
  (λ k, Script.ChangeTime <$> Script.observeAll (take k os) !! "h") <$> [1; 2; 3; 4; 5]%nat
  = Some <$> [0; 0; 20 * s; 20 * s; 40 * s]
  ∧ Duration.Get_DurationString (Script.durationSpan (Script.observeAll os) "h" (45 * s)) = "5s".
Proof. split; vm_compute; reflexivity. Qed.

(** ** One pass of the script *)

Section ScriptTick.

Import Script.

Implicit Types (statuses : gmap string bool) (stateStore : gmap string HostState)
  (nodes : list Node) (entry : Node).

Lemma checkEntry_insert net statuses entry :
  fst (checkEntry net statuses entry) = <[id entry := checkStatus net entry]> statuses.
Proof.
  unfold checkStatus, checkEntry.
  destruct (IsNullOrWhiteSpace (address entry)); simpl.
  - by rewrite lookup_insert_eq.
  - by rewrite lookup_insert_eq.
Qed.

Lemma performChecks_foldl net nodes statuses :
  fst (performChecks net nodes statuses)
  = foldl (λ m e, <[id e := checkStatus net e]> m) statuses nodes.
Proof.
  revert statuses. induction nodes as [|e nodes IH]; intros statuses; [done|].
  simpl. by rewrite IH, checkEntry_insert.
Qed.

Lemma foldl_insert_not_in net nodes statuses (k : string) :
  k ∉ id <$> nodes →
  foldl (λ m e, <[id e := checkStatus net e]> m) statuses nodes !! k = statuses !! k.
Proof.
  revert statuses. induction nodes as [|e nodes IH]; intros statuses Hk; [done|].
  simpl in *. apply not_elem_of_cons in Hk as [Hne Hk].
  rewrite IH by done. by rewrite lookup_insert_ne.
Qed.

(** When the check loop ends, the map holds the fresh status of every host
    of the pass, wherever it stands in the list. *)
Lemma performChecks_complete net nodes q :
  NoDup (id <$> nodes) → q ∈ nodes →
  fst (performChecks net nodes ∅) !! id q = Some (checkStatus net q).
Proof.
  rewrite performChecks_foldl. generalize (∅ : gmap string bool).
  induction nodes as [|e nodes IH]; intros statuses Hnd Hq.
  - by apply elem_of_nil in Hq.
  - simpl in *. apply NoDup_cons in Hnd as [Hfresh Hnd].
    apply elem_of_cons in Hq as [->|Hq].
    + rewrite foldl_insert_not_in by done. apply lookup_insert_eq.
    + by apply IH.
Qed.

Lemma performChecks_dom net nodes (k : string) :
  k ∈ id <$> nodes → is_Some (fst (performChecks net nodes ∅) !! k).
Proof.
  rewrite performChecks_foldl. generalize (∅ : gmap string bool).
  induction nodes as [|e nodes IH]; intros statuses Hk.
  - by apply elem_of_nil in Hk.
  - simpl in *. destruct (decide (k ∈ id <$> nodes)) as [Hin|Hout].
    + by apply IH.
    + rewrite foldl_insert_not_in by done.
      apply elem_of_cons in Hk as [->|Hk]; [|done].
      rewrite lookup_insert_eq. eauto.
Qed.

(** The process loop builds one record per entry, in order, from the entry
    and three computed values; the active parent is resolved against the
    map it is given. *)
Lemma processNodes_records statuses now nodes stateStore :
  Forall2 (λ entry r, ∃ uptimeString,
             r = resolved entry (default false (statuses !! id entry)) uptimeString
                   (resolveActiveParent entry statuses))
          nodes (fst (processNodes statuses now nodes stateStore)).
Proof.
  revert stateStore. induction nodes as [|e nodes IH]; intros stateStore; simpl.
  - constructor.
  - destruct (processNodes statuses now nodes _) as [rs final] eqn:E. simpl.
    constructor; [by eexists|].
    specialize (IH (trackState stateStore (id e) (default false (statuses !! id e)) now)).
    by rewrite E in IH.
Qed.

(** State of ids outside the host list stays as it was. *)
Lemma processNodes_stale statuses now nodes stateStore (k : string) :
  k ∉ id <$> nodes →
  snd (processNodes statuses now nodes stateStore) !! k = stateStore !! k.
Proof.
  revert stateStore. induction nodes as [|e nodes IH]; intros stateStore Hk; [done|].
  simpl in *. apply not_elem_of_cons in Hk as [Hne Hk].
  specialize (IH (trackState stateStore (id e) (default false (statuses !! id e)) now) Hk).
  destruct (processNodes statuses now nodes _) as [rs final]. simpl in *.
  rewrite IH. by apply trackState_other.
Qed.

Lemma tick_records net now nodes stateStore :
  Forall2 (λ entry r, ∃ uptimeString,
             r = resolved entry
                   (default false (fst (performChecks net nodes ∅) !! id entry))
                   uptimeString
                   (resolveActiveParent entry (fst (performChecks net nodes ∅))))
          nodes (finalResults (tick net now nodes stateStore)).
Proof. apply processNodes_records. Qed.

Lemma Forall2_ids nodes (rs : list ResolvedHost) :
  Forall2 (λ entry r, r_id r = id entry) nodes rs → r_id <$> rs = id <$> nodes.
Proof. induction 1 as [|e r nodes rs Hr _ IH]; csimpl; [done|]. by rewrite Hr, IH. Qed.

Lemma tick_ids net now nodes stateStore :
  r_id <$> finalResults (tick net now nodes stateStore) = id <$> nodes.
Proof.
  apply Forall2_ids.
  eapply Forall2_impl; [apply tick_records|]. by intros e r (u & ->).
Qed.

End ScriptTick.


(** ** The embedded scheduler *)

Section Scheduler.

Import App.

Implicit Types (s : Main) (env : Env) (c : Config) (l : list JsObj) (who : Caller).

Lemma statusResult_frame (n : JsObj) (b : bool) (t : Z) (k : string) :
  k ≠ "status" → k ≠ "responseTime" → statusResult n b t !! k = n !! k.
Proof. intros H1 H2. unfold statusResult. by rewrite !lookup_insert_ne. Qed.




Lemma probeNode_frame env (n : JsObj) (k : string) :
  k ≠ "status" → k ≠ "responseTime" → probeNode env n !! k = n !! k.
Proof. apply statusResult_frame. Qed.

Lemma mapped_pending env l who :
  mapped {| probes := pending env <$> l; caller := who |} = l.
Proof.
  unfold mapped. simpl. rewrite <- list_fmap_compose.
  rewrite <- (list_fmap_id l) at 2. by apply list_fmap_ext.
Qed.

Lemma statusResults_pending env l who :
  l ≠ [] → statusResults {| probes := pending env <$> l; caller := who |} = None.
Proof. destruct l as [|n l]; [done|]. intros _. reflexivity. Qed.

Lemma filter_none_refused env (ops : list IoEvent) :
  existsb (refused env) ops = false →
  List.filter (λ ev, negb (refused env ev)) ops = ops.
Proof.
  induction ops as [|ev ops IH]; [done|]. simpl.
  intros [H1 H2]%orb_false_elim. rewrite H1. simpl. by rewrite IH.
Qed.

(** *** A round up to the point where it waits *)

Lemma runMonitoring_no_list env who s :
  (monitoringConfig s = None ∨ ∃ c, monitoringConfig s = Some c ∧ nodes c = NodesFalsy) →
  runMonitoring env who s = (Some Returned, s).
Proof.
  intros [Hc | (c & Hc & Hl)]; unfold runMonitoring, bind, gets; rewrite Hc; [done|].
  by rewrite Hl.
Qed.

Lemma runMonitoring_not_array env who s c :
  monitoringConfig s = Some c → nodes c = NodesOther → runMonitoring env who s = (None, s).
Proof.
  intros Hc Hl. unfold runMonitoring, bind, gets. rewrite Hc, Hl. reflexivity.
Qed.

(** A round over an array none of whose ports is refused: the operations
    of all nodes are issued and the round waits, as round [nextRound s]. *)
Lemma runMonitoring_array env who s c l :
  monitoringConfig s = Some c → nodes c = NodesArray l → l ≠ [] →
  existsb (refused env) (probeEvent env <$> l) = false →
  runMonitoring env who s
  = (Some (Pending (nextRound s)),
     {| monitoringInterval := monitoringInterval s;
        monitoringConfig := monitoringConfig s;
        timers := timers s;
        nextHandle := nextHandle s;
        sent := sent s;
        issued := (issued s ++ (probeEvent env <$> l))%list;
        rounds := <[nextRound s := {| probes := pending env <$> l; caller := who |}]>
                    (rounds s);
        nextRound := S (nextRound s) |}).
Proof.
  intros Hc Hl Hne Hok. unfold runMonitoring, bind, gets, issue, openRound, modify, ret.
  destruct s; simpl in *; subst.
  rewrite Hl, Hok, (filter_none_refused env _ Hok).
  destruct l as [|n l]; [done|]. reflexivity.
Qed.

(** A round over the empty array sends its message at once. *)
Lemma runMonitoring_empty env who s c :
  monitoringConfig s = Some c → nodes c = NodesArray [] →
  runMonitoring env who s
  = (Some Returned,
     {| monitoringInterval := monitoringInterval s;
        monitoringConfig := monitoringConfig s;
        timers := timers s;
        nextHandle := nextHandle s;
        sent := {| msg_nodes := []; msg_updated := timeString env |} :: sent s;
        issued := issued s;
        rounds := rounds s;
        nextRound := nextRound s |}).
Proof.
  intros Hc Hl. unfold runMonitoring, bind, gets, issue, send, modify, ret.
  destruct s; simpl in *; subst. rewrite Hl. simpl. by rewrite app_nil_r.
Qed.

(** A round with a refused port throws once the operations of the other
    nodes are issued; it sends nothing and no round waits. *)
Lemma runMonitoring_refused env who s c l :
  monitoringConfig s = Some c → nodes c = NodesArray l →
  existsb (refused env) (probeEvent env <$> l) = true →
  runMonitoring env who s
  = (None,
     {| monitoringInterval := monitoringInterval s;
        monitoringConfig := monitoringConfig s;
        timers := timers s;
        nextHandle := nextHandle s;
        sent := sent s;
        issued := (issued s
                   ++ List.filter (λ ev, negb (refused env ev)) (probeEvent env <$> l))%list;
        rounds := rounds s;
        nextRound := nextRound s |}).
Proof.
  intros Hc Hl Hbad. unfold runMonitoring, bind, gets, issue, modify, throw.
  destruct s; simpl in *; subst. by rewrite Hl, Hbad.
Qed.

Ltac round_cases env s :=
  let c := fresh "c" in
  let l := fresh "l" in
  let Hc := fresh "Hc" in
  let Hl := fresh "Hl" in
  let Hok := fresh "Hok" in
  destruct (monitoringConfig s) as [c|] eqn:Hc;
    [destruct (nodes c) as [|l|] eqn:Hl;
       [rewrite runMonitoring_no_list by eauto
       |destruct (existsb (refused env) (probeEvent env <$> l)) eqn:Hok;
          [rewrite (runMonitoring_refused env _ s c l) by done
          |destruct (decide (l = [])) as [->|Hne];
             [rewrite (runMonitoring_empty env _ s c) by done
             |rewrite (runMonitoring_array env _ s c l) by done]]
       |rewrite (runMonitoring_not_array env _ s c) by done]
    |rewrite runMonitoring_no_list by eauto].

(** A round touches neither the timers nor the two variables. *)
Lemma runMonitoring_timers env who s :
  let s' := snd (runMonitoring env who s) in
  timers s' = timers s ∧ monitoringInterval s' = monitoringInterval s
  ∧ monitoringConfig s' = monitoringConfig s ∧ nextHandle s' = nextHandle s.
Proof. simpl. round_cases env s; done. Qed.

(** The only message a round sends before it waits is the one of an empty
    array. *)
Lemma runMonitoring_sent env who s (m : StatusMessage) :
  m ∈ sent (snd (runMonitoring env who s)) →
  m ∈ sent s
  ∨ (msg_nodes m = [] ∧ ∃ c, monitoringConfig s = Some c ∧ nodes c = NodesArray []).
Proof.
  round_cases env s; simpl; auto.
  intros [->|Hm]%elem_of_cons; [|by left]. right. eauto.
Qed.

(** The round that starts to wait is a new one, over the array of the
    configuration in force, with no result yet. *)
Lemma runMonitoring_rounds env who s (r : nat) (rd : Round) :
  rounds (snd (runMonitoring env who s)) !! r = Some rd →
  rounds s !! r = Some rd
  ∨ (r = nextRound s ∧ nextRound (snd (runMonitoring env who s)) = S (nextRound s)
     ∧ caller rd = who ∧ statusResults rd = None
     ∧ Forall (λ p, result p = None) (probes rd)
     ∧ ∃ c, monitoringConfig s = Some c ∧ nodes c = NodesArray (mapped rd)).
Proof.
  round_cases env s; simpl; auto.
  destruct (decide (r = nextRound s)) as [->|Hr].
  - rewrite lookup_insert_eq. intros [= <-]. right.
    split; [done|]. split; [done|]. split; [done|].
    split; [by apply statusResults_pending|].
    split; [by apply Forall_fmap, Forall_true|].
    exists c. by rewrite mapped_pending.
  - rewrite lookup_insert_ne by done. auto.
Qed.

(** Unless the round waits, the rounds in flight are as before. *)
Lemma runMonitoring_progress env who s :
  match fst (runMonitoring env who s) with
  | Some (Pending r) => r = nextRound s
  | _ => rounds (snd (runMonitoring env who s)) = rounds s
  end.
Proof. round_cases env s; done. Qed.

Lemma runMonitoring_nextRound env who s :
  (nextRound s ≤ nextRound (snd (runMonitoring env who s)))%nat.
Proof. round_cases env s; simpl; lia. Qed.

(** *** An outcome *)

Lemma finish_state env (r : nat) who (results : list JsObj) s :
  let s' := {| monitoringInterval := monitoringInterval s;
               monitoringConfig := monitoringConfig s;
               timers := timers s; nextHandle := nextHandle s;
               sent := {| msg_nodes := results; msg_updated := timeString env |} :: sent s;
               issued := issued s;
               rounds := delete r (rounds s); nextRound := nextRound s |} in
  finish env r who results s
  = match who with
    | ByTimer => (Some tt, s')
    | ByStart (Some c) => (Some tt, arm c s')
    | ByStart None => (None, s')
    end.
Proof. by destruct who as [[c|]|]. Qed.

Lemma settle_Settled env (r i : nat) s : Settled env r i s (settle env r i s).
Proof.
  unfold settle, bind, gets. simpl.
  destruct (rounds s !! r) as [rd|] eqn:Hr; [|apply settled_nothing; intros; congruence].
  destruct (probes rd !! i) as [p|] eqn:Hp;
    [|apply settled_nothing; intros rd' p' Hr' Hp'; congruence].
  destruct (result p) as [o|] eqn:Ho;
    [apply settled_nothing; intros rd' p' Hr' Hp'; rewrite Hr in Hr';
     injection Hr' as <-; rewrite Hp in Hp'; injection Hp' as <-; eauto|].
  destruct (statusResults _) as [results|] eqn:Hres.
  - rewrite finish_state. exact (settled_last env r i s rd p results Hr Hp Ho Hres).
  - exact (settled_one env r i s rd p Hr Hp Ho Hres).
Qed.

(** An outcome touches neither the configuration nor the operations
    issued; it arms a timer only when it ends a round that a [start]
    awaits. *)
Lemma settle_keeps env (r i : nat) s :
  let s' := snd (settle env r i s) in
  monitoringConfig s' = monitoringConfig s ∧ issued s' = issued s
  ∧ nextRound s' = nextRound s.
Proof.
  simpl. destruct (settle_Settled env r i s) as [?|rd p ? ? ? rd' ?|rd p results ? ? ? ? s'];
    [done..|].
  by destruct (caller rd) as [[c|]|].
Qed.

Lemma settle_timers env (r i : nat) s :
  let s' := snd (settle env r i s) in
  (timers s' = timers s ∧ monitoringInterval s' = monitoringInterval s
   ∧ nextHandle s' = nextHandle s)
  ∨ (∃ rd c, rounds s !! r = Some rd ∧ caller rd = ByStart (Some c)
             ∧ rounds s' = delete r (rounds s)
             ∧ timers s'
               = {| handle := nextHandle s; delay := or_else (interval c) (JsNum 2000) |}
                 :: timers s
             ∧ monitoringInterval s' = Some (nextHandle s)
             ∧ nextHandle s' = S (nextHandle s)).
Proof.
  simpl. destruct (settle_Settled env r i s) as [?|rd p ? ? ? rd' ?|rd p results Hr ? ? ? s'];
    [by left..|].
  destruct (caller rd) as [[c|]|] eqn:Hcaller; [|by left..].
  right. exists rd, c. done.
Qed.

(** A round keeps its caller and its nodes while it waits. *)
Lemma settle_rounds env (r i r' : nat) s (rd' : Round) :
  rounds (snd (settle env r i s)) !! r' = Some rd' →
  ∃ rd, rounds s !! r' = Some rd ∧ caller rd' = caller rd ∧ mapped rd' = mapped rd.
Proof.
  destruct (settle_Settled env r i s) as [?|rd p Hr Hp ? rd1 ?|rd p results Hr ? ? ? s'].
  - eauto.
  - simpl. destruct (decide (r' = r)) as [->|Hne].
    + rewrite lookup_insert_eq. intros [= <-]. exists rd. split; [done|]. split; [done|].
      unfold mapped. simpl. rewrite list_fmap_insert. apply list_insert_id.
      by rewrite list_lookup_fmap, Hp.
    + rewrite lookup_insert_ne by done. eauto.
  - assert (rounds s' !! r' = Some rd' → ∃ rd0, rounds s !! r' = Some rd0
              ∧ caller rd' = caller rd0 ∧ mapped rd' = mapped rd0) as Hkeep.
    { simpl. intros [_ Hin]%lookup_delete_Some. eauto. }
    by destruct (caller rd) as [[c|]|].
Qed.

(** The end of a round: its message holds the results of its probes, in
    the order of the array. *)
Lemma settle_sent env (r i : nat) s (m : StatusMessage) :
  m ∈ sent (snd (settle env r i s)) →
  m ∈ sent s
  ∨ ∃ rd p,
      rounds s !! r = Some rd ∧ probes rd !! i = Some p ∧ result p = None
      ∧ rounds (snd (settle env r i s)) !! r = None
      ∧ msg_updated m = timeString env
      ∧ mapM result (<[i := settled env p]> (probes rd)) = Some (msg_nodes m).
Proof.
  destruct (settle_Settled env r i s) as [?|rd p Hr Hp ? rd1 ?|rd p results Hr Hp Ho Hres s'];
    [by left..|].
  assert (m ∈ sent s' → rounds s' !! r = None →
          m ∈ sent s ∨ ∃ rd p, rounds s !! r = Some rd ∧ probes rd !! i = Some p
            ∧ result p = None ∧ msg_updated m = timeString env
            ∧ mapM result (<[i := settled env p]> (probes rd)) = Some (msg_nodes m)) as Hkeep.
  { simpl. intros [->|Hm]%elem_of_cons _; [|by left]. right. exists rd, p. done. }
  assert (rounds s' !! r = None) as Hgone by apply lookup_delete_eq.
  destruct (caller rd) as [[c|]|]; simpl in *; intros Hm;
    (destruct (Hkeep Hm Hgone) as [?|(rd0 & p0 & ? & ? & ? & ? & ?)]; [by left|]);
    right; exists rd0, p0; done.
Qed.

(** The results of built probes are those of their nodes. *)
Lemma built_results (ps : list Probe) (results : list JsObj) :
  Forall built ps → mapM result ps = Some results →
  Forall2 (λ n o, ∃ b t, o = statusResult n b t) (node <$> ps) results.
Proof.
  intros Hb Hm. apply mapM_Some in Hm. apply Forall2_fmap_l.
  induction Hm as [|p o ps results Hp _ IH]; [constructor|].
  apply Forall_cons in Hb as [Hb1 Hb]. constructor; [by apply Hb1|by apply IH].
Qed.

Lemma built_settled env (p : Probe) : built (settled env p).
Proof. intros o [= <-]. unfold outcome. simpl. eauto. Qed.

Lemma ids_results (l results : list JsObj) :
  Forall2 (λ n o, ∃ b t, o = statusResult n b t) l results → ids results = ids l.
Proof.
  induction 1 as [|n o l results (b & t & ->) _ IH]; [done|].
  unfold ids in *. csimpl. rewrite IH. f_equal.
  unfold prop. by rewrite statusResult_frame.
Qed.

(** *** The handlers *)

(** The first part of [start]: the configuration is replaced and the timer
    [monitoringInterval] refers to is cancelled. *)
Lemma replaceRun_state config s :
  replaceRun config s
  = (Some tt,
     {| monitoringInterval := monitoringInterval s;
        monitoringConfig := config;
        timers := match monitoringInterval s with
                  | Some h => filter (λ t, handle t ≠ h) (timers s)
                  | None => timers s
                  end;
        nextHandle := nextHandle s; sent := sent s; issued := issued s;
        rounds := rounds s; nextRound := nextRound s |}).
Proof.
  unfold replaceRun, bind, set_monitoringConfig, modify, gets. simpl.
  by destruct (monitoringInterval s).
Qed.

Lemma stop_unfold s :
  stop s
  = (Some {| success := true |},
     {| monitoringInterval := None;
        monitoringConfig := monitoringConfig s;
        timers := match monitoringInterval s with
                  | Some h => filter (λ t, handle t ≠ h) (timers s)
                  | None => timers s
                  end;
        nextHandle := nextHandle s; sent := sent s; issued := issued s;
        rounds := rounds s; nextRound := nextRound s |}).
Proof.
  unfold stop, bind, gets, clearInterval, set_monitoringInterval, modify, ret. simpl.
  destruct (monitoringInterval s) as [h|] eqn:Hh; simpl; [done|].
  destruct s; simpl in *. by subst.
Qed.

Lemma start_unfold env config s :
  start env config s
  = match runMonitoring env (ByStart config) (snd (replaceRun config s)) with
    | (Some Returned, s2) =>
        match config with
        | Some c => (Some (Replied {| success := true |}), arm c s2)
        | None => (None, s2)
        end
    | (Some (Pending r), s2) => (Some (Awaiting r), s2)
    | (None, s2) => (None, s2)
    end.
Proof.
  unfold start. unfold bind at 1. rewrite replaceRun_state. simpl.
  unfold bind at 1. destruct (runMonitoring env _ _) as [[[|r]|] s2]; [|done..].
  by destruct config.
Qed.

(** The timers a cancellation leaves were armed before. *)
Lemma cleared_timers (h : option nat) (ts : list Timer) (t : Timer) :
  t ∈ match h with Some h => filter (λ t, handle t ≠ h) ts | None => ts end → t ∈ ts.
Proof. destruct h; [|done]. by intros [_ ?]%list_elem_of_filter. Qed.

Lemma consistent_clear s (h : nat) :
  consistent s → monitoringInterval s = Some h →
  filter (λ t, handle t ≠ h) (timers s) = [].
Proof.
  intros (Href & _ & _) Hh.
  destruct (filter _ _) as [|t ts] eqn:E; [done|].
  assert (Ht : t ∈ filter (λ t, handle t ≠ h) (timers s)) by (rewrite E; left).
  apply list_elem_of_filter in Ht as [Hne Ht]. specialize (Href t Ht). congruence.
Qed.

Lemma consistent_idle s :
  consistent s → monitoringInterval s = None → timers s = [].
Proof.
  intros (Href & _ & _) Hh. destruct (timers s) as [|t ts]; [done|].
  specialize (Href t (list_elem_of_here _ _)). congruence.
Qed.

Lemma consistent_cleared s :
  consistent s →
  match monitoringInterval s with
  | Some h => filter (λ t, handle t ≠ h) (timers s)
  | None => timers s
  end = [].
Proof.
  intros Hs. destruct (monitoringInterval s) as [h|] eqn:Hh.
  - by apply consistent_clear.
  - by apply consistent_idle.
Qed.

Lemma replaceRun_idle config s :
  consistent s → timers (snd (replaceRun config s)) = [].
Proof. intros Hs. rewrite replaceRun_state. simpl. by apply consistent_cleared. Qed.

Lemma consistent_no_timer s : timers s = [] → consistent s.
Proof.
  intros H. unfold consistent. rewrite H. split; [|split].
  - by intros t ?%elem_of_nil.
  - constructor.
  - by intros t ?%elem_of_nil.
Qed.

Lemma consistent_arm c s : timers s = [] → consistent (arm c s).
Proof.
  intros Ht. unfold consistent, arm. simpl. rewrite Ht. split; [|split].
  - by intros t ->%list_elem_of_singleton.
  - apply NoDup_singleton.
  - intros t ->%list_elem_of_singleton. simpl. lia.
Qed.

Lemma consistent_at_most_one s : consistent s → (length (timers s) ≤ 1)%nat.
Proof.
  intros (Href & Hnd & _). destruct (timers s) as [|t [|t' ts]]; simpl; [lia..|].
  exfalso. pose proof (Href t (list_elem_of_here _ _)) as H1.
  pose proof (Href t' (list_elem_of_further _ _ _ (list_elem_of_here _ _))) as H2.
  rewrite H1 in H2. injection H2 as H2.
  rewrite !fmap_cons in Hnd. apply NoDup_cons in Hnd as [Hnotin _].
  apply Hnotin. rewrite H2. left.
Qed.

(** *** A round whose outcomes all arrive *)

Local Open Scope list_scope.

Lemma mapM_settled env (ps : list Probe) :
  mapM result (settled env <$> ps) = Some (outcome env <$> ps).
Proof. apply mapM_Some, Forall2_fmap, Forall_Forall2_diag, Forall_true. done. Qed.

Lemma outcome_pending env env' (n : JsObj) :
  isWindows env' = isWindows env → outcome env' (pending env n) = probeNode env' n.
Proof.
  intros Hw. unfold outcome, probeNode, pending, probeEvent. simpl. by rewrite Hw.
Qed.

(** When the outcomes of the probes still waited for arrive in the order
    of the array, the round ends with the last of them. *)
Lemma settle_rest env (r : nat) who (todo dn : list Probe) s :
  rounds s !! r = Some {| probes := (settled env <$> dn) ++ todo; caller := who |} →
  Forall (λ p, result p = None) todo → todo ≠ [] →
  steps (ProbeSettles env r <$> seq (length dn) (length todo)) s
  = snd (finish env r who (outcome env <$> (dn ++ todo)) s).
Proof.
  revert dn s. induction todo as [|p todo IH]; [done|]. intros dn s Hr Hpend _.
  apply Forall_cons in Hpend as [Hp Hpend].
  assert (((settled env <$> dn) ++ p :: todo) !! length dn = Some p) as Hlook.
  { rewrite <- (length_fmap (settled env) dn). apply list_lookup_middle. done. }
  assert (<[length dn := settled env p]> ((settled env <$> dn) ++ p :: todo)
          = (settled env <$> (dn ++ [p])) ++ todo) as Hins.
  { rewrite <- (length_fmap (settled env) dn) at 1.
    rewrite insert_app_r_alt, Nat.sub_diag by done. simpl.
    by rewrite fmap_app, <- app_assoc. }
  change (steps (ProbeSettles env r <$> seq (length dn) (length (p :: todo))) s)
    with (steps (ProbeSettles env r <$> seq (S (length dn)) (length todo))
            (snd (settle env r (length dn) s))).
  unfold settle, bind, gets. simpl. rewrite Hr. simpl. rewrite Hlook, Hp, Hins.
  destruct todo as [|p2 todo].
  - unfold statusResults. simpl. rewrite app_nil_r, mapM_settled. done.
  - assert (statusResults {| probes := (settled env <$> dn ++ [p]) ++ p2 :: todo;
                             caller := who |} = None) as Hnone.
    { apply mapM_None, Exists_app. right. left. by apply Forall_cons in Hpend as [? _]. }
    rewrite Hnone. unfold keepRound, modify.
    specialize (IH (dn ++ [p])). rewrite length_app, Nat.add_1_r in IH.
    rewrite IH; [|by simpl; rewrite lookup_insert_eq|done|done].
    rewrite !finish_state. simpl. rewrite delete_insert_eq, <- app_assoc. simpl.
    by destruct who as [[c|]|].
Qed.

(** A round that has just started to wait, and all its outcomes. *)
Lemma settleAll_round env env' (r : nat) who l s :
  rounds s !! r = Some {| probes := pending env <$> l; caller := who |} → l ≠ [] →
  isWindows env' = isWindows env →
  steps (settleAll env' r (length l)) s
  = snd (finish env' r who (probeNode env' <$> l) s).
Proof.
  intros Hr Hne Hw. unfold settleAll.
  pose proof (settle_rest env' r who (pending env <$> l) [] s) as H. simpl in H.
  rewrite length_fmap in H. rewrite H; [|done|by apply Forall_fmap, Forall_true|].
  - f_equal. f_equal. rewrite <- list_fmap_compose. apply list_fmap_ext.
    intros _ n _. simpl. by apply outcome_pending.
  - by destruct l.
Qed.

End Scheduler.

(** ** Invariants of the scheduler *)

Section Invariants.

Import App.

Implicit Types (s : Main) (env : Env) (c : Config) (l : list JsObj) (who : Caller).

Lemma suspended_true s :
  suspended s = true ↔ ∃ r rd, rounds s !! r = Some rd ∧ awaited rd = true.
Proof.
  unfold suspended. rewrite existsb_exists. split.
  - intros ([r rd] & Hin & Hw). exists r, rd. split; [|done].
    by apply elem_of_map_to_list, list_elem_of_In.
  - intros (r & rd & Hr & Hw). exists (r, rd). split; [|done].
    by apply list_elem_of_In, elem_of_map_to_list.
Qed.

Lemma suspended_false s :
  suspended s = false ↔ ∀ r rd, rounds s !! r = Some rd → awaited rd = false.
Proof.
  split.
  - intros Hs r rd Hr. destruct (awaited rd) eqn:Hw; [|done].
    assert (suspended s = true) by (apply suspended_true; eauto). congruence.
  - intros Hall. destruct (suspended s) eqn:Hs; [|done].
    apply suspended_true in Hs as (r & rd & Hr & Hw). rewrite (Hall r rd Hr) in Hw. done.
Qed.

(** *** Every run *)

Lemma initial_wellFormed : wellFormed initial.
Proof. split; [by intros t ?%elem_of_nil|]. intros r rd Hr. by simpl in Hr. Qed.

Lemma wellFormed_timers s s' :
  wellFormed s → (∀ t, t ∈ timers s' → t ∈ timers s) → nextHandle s' = nextHandle s →
  rounds s' = rounds s → nextRound s' = nextRound s → wellFormed s'.
Proof.
  intros [Ht Hr] Hsub Hn Hrs Hnr. split.
  - intros t Hin. rewrite Hn. by apply Ht, Hsub.
  - intros r rd. rewrite Hrs, Hnr. apply Hr.
Qed.

Lemma wellFormed_arm c s : wellFormed s → wellFormed (arm c s).
Proof.
  intros [Ht Hr]. split; [|done]. simpl.
  intros t [->|Hin]%elem_of_cons; simpl; [lia|]. specialize (Ht t Hin). lia.
Qed.

Lemma wellFormed_runMonitoring env who s :
  wellFormed s → wellFormed (snd (runMonitoring env who s)).
Proof.
  intros [Ht Hr].
  pose proof (runMonitoring_timers env who s) as (Hts & _ & _ & Hn). simpl in Hts, Hn.
  split.
  - intros t. rewrite Hts, Hn. apply Ht.
  - intros r rd Hin. pose proof (runMonitoring_nextRound env who s) as Hle.
    destruct (runMonitoring_rounds env who s r rd Hin)
      as [Hold|(-> & Hnext & _ & Hnone & Hres & _)].
    + destruct (Hr r rd Hold) as (? & ? & ?). split; [lia|done].
    + split; [lia|]. split; [done|].
      eapply Forall_impl; [exact Hres|]. intros p Hp o Ho. congruence.
Qed.

Lemma wellFormed_settle env (r i : nat) s :
  wellFormed s → wellFormed (snd (settle env r i s)).
Proof.
  intros [Ht Hr].
  destruct (settle_Settled env r i s) as [?|rd p Hrd Hp Ho rd1 Hnone|rd p results Hrd ? ? ? s'].
  - done.
  - split; [done|]. simpl. intros r' rd'.
    destruct (decide (r' = r)) as [->|Hne].
    + rewrite lookup_insert_eq. intros [= <-]. destruct (Hr r rd Hrd) as (? & _ & Hb).
      split; [done|]. split; [done|]. simpl.
      apply Forall_insert; [done|apply built_settled].
    + rewrite lookup_insert_ne by done. apply Hr.
  - assert (wellFormed s') as Hs'.
    { split; [done|]. simpl. intros r' rd' [_ Hin]%lookup_delete_Some. by apply Hr. }
    destruct (caller rd) as [[c|]|]; simpl; [by apply wellFormed_arm|done..].
Qed.

Lemma wellFormed_step (e : Event) s : wellFormed s → wellFormed (step e s).
Proof.
  intros Hs. destruct e as [env config| |env h|env r i]; simpl.
  - rewrite start_unfold.
    assert (wellFormed (snd (replaceRun config s))) as H1.
    { eapply wellFormed_timers; [exact Hs|..]; rewrite replaceRun_state; simpl; try done.
      intros t. apply cleared_timers. }
    pose proof (wellFormed_runMonitoring env (ByStart config) _ H1) as H2.
    destruct (runMonitoring env _ _) as [[[|r]|] s2]; simpl in *; [|done..].
    destruct config as [c|]; simpl; [by apply wellFormed_arm|done].
  - eapply wellFormed_timers; [exact Hs|..]; rewrite stop_unfold; simpl; try done.
    intros t. apply cleared_timers.
  - destruct (armed h s); [|done]. by apply wellFormed_runMonitoring.
  - by apply wellFormed_settle.
Qed.

Lemma wellFormed_steps (es : list Event) s : wellFormed s → wellFormed (steps es s).
Proof.
  revert s. induction es as [|e es IH]; intros s Hs; [done|].
  simpl. by apply IH, wellFormed_step.
Qed.

(** *** Runs in which [start] calls do not overlap *)

Lemma initial_consistent : consistent initial.
Proof. by apply consistent_no_timer. Qed.

Lemma initial_inOrder : inOrder initial.
Proof. split; [apply initial_consistent|]. intros r rd Hr. by simpl in Hr. Qed.

(** A state with the same timers and no further round that is awaited. *)
Lemma inOrder_rounds s s' :
  inOrder s → timers s' = timers s → monitoringInterval s' = monitoringInterval s →
  nextHandle s' = nextHandle s →
  (∀ r rd', rounds s' !! r = Some rd' → awaited rd' = true →
            ∃ rd, rounds s !! r = Some rd ∧ awaited rd = true) →
  inOrder s'.
Proof.
  intros [Hc Hw] Ht Hi Hn Hsub. split.
  - unfold consistent. by rewrite Ht, Hi, Hn.
  - intros r rd' Hr Ha. destruct (Hsub r rd' Hr Ha) as (rd & Hrd & Hrda).
    destruct (Hw r rd Hrd Hrda) as [Hidle Hone]. split; [by rewrite Ht|].
    intros r2 rd2 Hr2 Ha2. destruct (Hsub r2 rd2 Hr2 Ha2) as (rd3 & ? & ?). eauto.
Qed.

Lemma inOrder_idle s :
  consistent s → timers s = [] →
  (∀ r r' rd rd', rounds s !! r = Some rd → awaited rd = true →
                  rounds s !! r' = Some rd' → awaited rd' = true → r' = r) →
  inOrder s.
Proof. intros Hc Ht Hone. split; [done|]. intros r rd Hr Ha. split; [done|]. eauto. Qed.

Lemma inOrder_settle env (r i : nat) s : inOrder s → inOrder (snd (settle env r i s)).
Proof.
  intros Hs. pose proof Hs as [Hc Hw].
  destruct (settle_Settled env r i s) as [?|rd p Hrd Hp Ho rd1 Hnone|rd p results Hrd ? ? ? s'].
  - done.
  - eapply inOrder_rounds; [exact Hs|done..|]. simpl. intros r' rd'.
    destruct (decide (r' = r)) as [->|Hne].
    + rewrite lookup_insert_eq. intros [= <-] Ha. eauto.
    + rewrite lookup_insert_ne by done. eauto.
  - assert (inOrder s') as Hs'.
    { eapply inOrder_rounds; [exact Hs|done..|]. simpl.
      intros r' rd' [_ Hin]%lookup_delete_Some. eauto. }
    destruct (caller rd) as [[c|]|] eqn:Hcaller; simpl; [|done..].
    assert (awaited rd = true) as Ha by (unfold awaited; by rewrite Hcaller).
    destruct (Hw r rd Hrd Ha) as [Hidle Hone].
    split; [by apply consistent_arm|]. simpl.
    intros r' rd' [Hne Hin]%lookup_delete_Some Ha'. destruct Hne. symmetry. eauto.
Qed.

Lemma inOrder_runMonitoring_timer env s :
  inOrder s → inOrder (snd (runMonitoring env ByTimer s)).
Proof.
  intros Hs. pose proof (runMonitoring_timers env ByTimer s) as (Ht & Hi & _ & Hn).
  simpl in *. eapply inOrder_rounds; [exact Hs|done..|].
  intros r rd Hr Ha.
  destruct (runMonitoring_rounds env ByTimer s r rd Hr) as [?|(_ & _ & Hcaller & _)]; [eauto|].
  unfold awaited in Ha. by rewrite Hcaller in Ha.
Qed.

Lemma inOrder_start env config s :
  inOrder s → suspended s = false → inOrder (snd (start env config s)).
Proof.
  intros [Hc Hw] Hq. rewrite start_unfold.
  pose proof (replaceRun_idle config s Hc) as Hidle.
  set (s1 := snd (replaceRun config s)) in *.
  assert (rounds s1 = rounds s) as Hrs by (unfold s1; by rewrite replaceRun_state).
  pose proof (runMonitoring_timers env (ByStart config) s1) as (Ht & _ & _ & _).
  simpl in Ht. rewrite Hidle in Ht.
  pose proof (runMonitoring_progress env (ByStart config) s1) as Hp.
  assert (∀ k x, rounds (snd (runMonitoring env (ByStart config) s1)) !! k = Some x →
                 awaited x = true → k = nextRound s1) as Hnew.
  { intros k x Hk Hx.
    destruct (runMonitoring_rounds env _ s1 k x Hk) as [Hold|(-> & _)]; [|done].
    rewrite Hrs in Hold. rewrite (proj1 (suspended_false s) Hq k x Hold) in Hx. done. }
  assert (∀ s2, rounds s2 = rounds s → timers s2 = [] → inOrder s2) as Hquiet.
  { intros s2 Hr2 Ht2. apply inOrder_idle; [by apply consistent_no_timer|done|].
    intros r r' rd rd' Hr Ha. rewrite Hr2 in Hr.
    rewrite (proj1 (suspended_false s) Hq r rd Hr) in Ha. done. }
  destruct (runMonitoring env _ s1) as [[[|r]|] s2]; simpl in *.
  - rewrite Hrs in Hp. destruct config as [c|]; simpl; [|by apply Hquiet].
    split; [by apply consistent_arm|]. simpl. intros r rd Hr Ha. rewrite Hp in Hr.
    rewrite (proj1 (suspended_false s) Hq r rd Hr) in Ha. done.
  - apply inOrder_idle; [by apply consistent_no_timer|done|].
    intros k k' x x' Hk Hx Hk' Hx'. rewrite (Hnew k x Hk Hx). by apply (Hnew k' x').
  - rewrite Hrs in Hp. by apply Hquiet.
Qed.

Lemma inOrder_stop s : inOrder s → inOrder (snd (stop s)).
Proof.
  intros [Hc Hw]. rewrite stop_unfold. simpl.
  apply inOrder_idle; simpl.
  - apply consistent_no_timer. simpl. by apply consistent_cleared.
  - by apply consistent_cleared.
  - intros r r' rd rd' Hr Ha Hr' Ha'. destruct (Hw r rd Hr Ha) as [_ Hone]. eauto.
Qed.

Lemma inOrder_steps (es : list Event) s :
  orderly es s = true → inOrder s → inOrder (steps es s).
Proof.
  revert s. induction es as [|e es IH]; intros s Ho Hs; [done|].
  simpl in Ho. apply andb_prop in Ho as [He Ho]. simpl. apply IH; [done|].
  destruct e as [env config| |env h|env r i]; simpl.
  - apply inOrder_start; [done|]. by apply negb_true_iff.
  - by apply inOrder_stop.
  - destruct (armed h s); [|done]. by apply inOrder_runMonitoring_timer.
  - by apply inOrder_settle.
Qed.

(** While a [start] waits for its first round the loop is Idle. *)
Lemma inOrder_suspended s : inOrder s → suspended s = true → timers s = [].
Proof. intros [_ Hw] (r & rd & Hr & Ha)%suspended_true. by apply (Hw r rd). Qed.

End Invariants.
(** ** A pass resolves against the statuses of the whole pass *)

Section FullStatuses.

Import Script.

Lemma Forall2_fmap_eq {A B C} (f : B → C) (g : A → C) (l : list A) (rs : list B) :
  Forall2 (λ a b, f b = g a) l rs → f <$> rs = g <$> l.
Proof. induction 1 as [|a b l rs Hab _ IH]; csimpl; [done|]. by rewrite Hab, IH. Qed.

(** The resolver of every host reads the map as the check loop left it,
    and with distinct ids that map gives every host of the pass the status
    just observed, also for hosts later in the list. *)
Lemma tick_resolves_on_full_statuses net now (nodes : list Node)
    (stateStore : gmap string HostState) :
  NoDup (id <$> nodes) →
  let statuses := fst (performChecks net nodes ∅) in
  (∀ q, q ∈ nodes → statuses !! id q = Some (checkStatus net q))
  ∧ Forall2 (λ entry r, r_id r = id entry ∧ r_status r = checkStatus net entry
                        ∧ r_activeParentId r = resolveActiveParent entry statuses)
            nodes (finalResults (tick net now nodes stateStore)).
Proof.
  intros Hnd statuses. split.
  - intros q Hq. by apply performChecks_complete.
  - pose proof (tick_records net now nodes stateStore) as H.
    apply Forall2_same_length_lookup. split; [by eapply Forall2_length|].
    intros k e r He Hr.
    destruct (Forall2_lookup_lr _ _ _ _ _ _ H He Hr) as (u & ->). simpl.
    split; [done|]. split; [|done].
    fold statuses. unfold statuses.
    rewrite performChecks_complete; [done..|]. by eapply list_elem_of_lookup_2.
Qed.

Lemma scenario_any_order net now (stateStore : gmap string HostState) (nodes : list Node) :
  nodes ≡ₚ [Scenario.hostA; Scenario.hostB; Scenario.hostC] →
  checkStatus net Scenario.hostA = false →
  checkStatus net Scenario.hostB = true →
  checkStatus net Scenario.hostC = true →
  Scenario.summary <$> finalResults (tick net now nodes stateStore) ≡ₚ Scenario.expected.
Proof.
  intros Hperm HA HB HC.
  assert (Hnd : NoDup (id <$> nodes)).
  { rewrite Hperm. compute_done. }
  destruct (tick_resolves_on_full_statuses net now nodes stateStore Hnd) as [Hst Hrec].
  set (statuses := fst (performChecks net nodes ∅)) in *.
  assert (HsA : statuses !! "A" = Some false).
  { pose proof (Hst Scenario.hostA) as H. rewrite HA in H. apply H.
    rewrite Hperm. apply list_elem_of_here. }
  assert (HsB : statuses !! "B" = Some true).
  { pose proof (Hst Scenario.hostB) as H. rewrite HB in H. apply H.
    rewrite Hperm. apply list_elem_of_further, list_elem_of_here. }
  rewrite (Forall2_fmap_eq Scenario.summary
             (λ e, (id e, checkStatus net e, resolveActiveParent e statuses)) nodes).
  - rewrite Hperm. csimpl. rewrite HA, HB, HC.
    unfold resolveActiveParent, parentUp. simpl. rewrite HsA, HsB. simpl.
    reflexivity.
  - eapply Forall2_impl; [exact Hrec|].
    intros e r (Hid & Hs & Ha). unfold Scenario.summary. by rewrite Hid, Hs, Ha.
Qed.

End FullStatuses.

(** C4.  In the script the statuses of all hosts of a pass are
    recorded before any active parent is resolved: with distinct ids, the
    resolver of every host reads a map that gives each host of the pass,
    earlier or later in the list, the status just observed.  So with hosts
    A (no parent), B (primary A) and C (primary A, secondary B) in any
    order, A down and B and C up, one pass publishes no active parent for
    A, A for B and B for C.  The embedded scheduler does no such
    resolution: every node object it publishes has the [activeParentId] of
    the configured node, and its round over the same hosts with the same
    probe results publishes none, so that the renderer shows A as the
    active parent of C. *)
Theorem scenario_round :
  (∀ net now nodes stateStore,
     NoDup (Script.id <$> nodes) →
     let statuses := fst (Script.performChecks net nodes ∅) in
     (∀ q, q ∈ nodes → statuses !! Script.id q = Some (Script.checkStatus net q))
     ∧ Forall2 (λ entry r,
          Script.r_id r = Script.id entry
          ∧ Script.r_status r = Script.checkStatus net entry
          ∧ Script.r_activeParentId r = Script.resolveActiveParent entry statuses)
        nodes (Script.finalResults (Script.tick net now nodes stateStore)))
  ∧ (∀ now stateStore nodes,
     nodes ≡ₚ [Scenario.hostA; Scenario.hostB; Scenario.hostC] →
     Scenario.summary <$> Script.finalResults (Script.tick Scenario.net now nodes stateStore)
     ≡ₚ Scenario.expected)
  ∧ (∀ now stateStore,
     Scenario.summary
       <$> Script.finalResults
             (Script.tick Scenario.net now
                [Scenario.hostA; Scenario.hostB; Scenario.hostC] stateStore)
     = Scenario.expected)
  ∧ (∀ env (n : gmap string App.JsVal),
     App.probeNode env n !! "activeParentId" = n !! "activeParentId")
  ∧ (λ m, Scenario.nodeSummary <$> App.msg_nodes m)
      <$> App.sent (App.steps (App.CallStart Scenario.env (Some Scenario.config)
                               :: App.settleAll Scenario.env 0 3) App.initial)
    = [[(App.JsStr "A", App.JsBool false, App.JsUndefined, App.JsNull);
        (App.JsStr "B", App.JsBool true, App.JsUndefined, App.JsStr "A");
        (App.JsStr "C", App.JsBool true, App.JsUndefined, App.JsStr "A")]].
Proof.
  assert (Hany : ∀ now stateStore nodes,
     nodes ≡ₚ [Scenario.hostA; Scenario.hostB; Scenario.hostC] →
     Scenario.summary <$> Script.finalResults (Script.tick Scenario.net now nodes stateStore)
     ≡ₚ Scenario.expected).
  { intros now stateStore nodes Hperm.
    apply scenario_any_order; [done|vm_compute; reflexivity..]. }
  split; [apply tick_resolves_on_full_statuses|].
  split; [exact Hany|]. split; [|split].
  - intros now stateStore.
    pose proof (tick_resolves_on_full_statuses Scenario.net now
      [Scenario.hostA; Scenario.hostB; Scenario.hostC] stateStore) as [Hst Hrec].
    { compute_done. }
    rewrite (Forall2_fmap_eq Scenario.summary
               (λ e, (Script.id e, Script.checkStatus Scenario.net e,
                      Script.resolveActiveParent e
                        (fst (Script.performChecks Scenario.net
                           [Scenario.hostA; Scenario.hostB; Scenario.hostC] ∅))))
               [Scenario.hostA; Scenario.hostB; Scenario.hostC]);
      [|eapply Forall2_impl; [exact Hrec|]].
    + vm_compute. reflexivity.
    + intros e r (Hid & Hs & Ha). unfold Scenario.summary. rewrite Hid, Hs, Ha.
      reflexivity.
  - intros env n. by apply probeNode_frame.
  - vm_compute. reflexivity.
Qed.

(** The embedded scheduler at the scenario of C4: with A down and B and C
    up, the node it publishes for C has no [activeParentId], not B. *)
Lemma embedded_round_resolves_nothing :
  ∃ m n,
    App.sent (App.steps (App.CallStart Scenario.env (Some Scenario.config)
                         :: App.settleAll Scenario.env 0 3) App.initial) = [m]
    ∧ App.msg_nodes m !! 2%nat = Some n
    ∧ App.prop n "id" = App.JsStr "C"
    ∧ App.prop n "status" = App.JsBool true
    ∧ App.prop n "activeParentId" = App.JsUndefined
    ∧ App.prop n "activeParentId" ≠ App.JsStr "B".
Proof.
  eexists _, _. split; [vm_compute; reflexivity|].
  split; [vm_compute; reflexivity|].
  repeat split; [vm_compute; reflexivity..|vm_compute; discriminate].
Qed.

(** ** Probing *)

Section Probes.

Import Script.

Lemma checkEntry_blank net (statuses : gmap string bool) (entry : Node) :
  IsNullOrWhiteSpace (address entry) = true →
  checkEntry net statuses entry = (<[id entry := false]> statuses, []).
Proof. intros H. unfold checkEntry. by rewrite H. Qed.

Lemma Test_PingFast_blank net (a : option string) (t : Z) :
  IsNullOrWhiteSpace a = true → Test_PingFast net a t = (false, []).
Proof. intros H. unfold Test_PingFast. by rewrite H. Qed.

Lemma Test_PortFast_blank net (a : option string) (p : option Z) (t : Z) :
  IsNullOrWhiteSpace a = true → Test_PortFast net a p t = (false, []).
Proof. intros H. unfold Test_PortFast. by rewrite H. Qed.

(** A blank address adds nothing to the trace of a whole check loop. *)
Lemma performChecks_trace net (nodes : list Node) (statuses : gmap string bool) :
  snd (performChecks net nodes statuses)
  = nodes ≫= (λ entry, snd (checkEntry net ∅ entry)).
Proof.
  revert statuses. induction nodes as [|e nodes IH]; intros statuses; [done|].
  simpl. rewrite IH. f_equal.
  unfold checkEntry. destruct (IsNullOrWhiteSpace _); [done|]. by destruct (port e).
Qed.

(** An entry without port is pinged. *)
Lemma checkEntry_ping net (statuses : gmap string bool) (entry : Node) (a : string) :
  port entry = None → address entry = Some a → IsNullOrWhiteSpace (Some a) = false →
  checkEntry net statuses entry
  = (<[id entry := net (PingSend a pingTimeoutMs)]> statuses, [PingSend a pingTimeoutMs]).
Proof.
  intros Hp Ha Hb. unfold checkEntry, Test_PingFast. by rewrite Hp, Ha, Hb.
Qed.

(** A TCP connect is attempted only for an entry with a port. *)
Lemma checkEntry_tcp net (statuses : gmap string bool) (entry : Node) a p t :
  TcpBeginConnect a p t ∈ snd (checkEntry net statuses entry) → is_Some (port entry).
Proof.
  unfold checkEntry. destruct (IsNullOrWhiteSpace _); simpl.
  - by intros ?%elem_of_nil.
  - destruct (port entry) as [q|]; [eauto|].
    unfold Test_PingFast. destruct (IsNullOrWhiteSpace _); simpl.
    + by intros ?%elem_of_nil.
    + intros [=]%list_elem_of_singleton.
Qed.

Lemma normalizePort_empty cast (v : Json) :
  v = JNull ∨ v = JStr "" → normalizePort cast v = Some None.
Proof. by intros [-> | ->]. Qed.

Lemma normalizePort_Some cast (v : Json) (p : Z) :
  normalizePort cast v = Some (Some p) → v ≠ JNull ∧ v ≠ JStr "".
Proof. destruct v as [|s|z]; [done| |done]. destruct s; [done|]. done. Qed.

End Probes.

(** C5.  In the script a host whose address is null, empty or blank gets
    status [false] and no network operation is issued, with or without a
    port; the two probe functions guard themselves the same way.  The
    embedded scheduler has no such guard: for a node with an empty address
    and port 80 it opens a socket, without a port it runs the ping command
    with an empty argument, and for a node without address it pings the
    name "undefined", all as soon as [start] is called; the status
    published once the outcomes are there is whatever the operation
    gives. *)
Theorem empty_address_probe :
  (∀ net statuses entry,
     Script.IsNullOrWhiteSpace (Script.address entry) = true →
     Script.checkEntry net statuses entry = (<[Script.id entry := false]> statuses, []))
  ∧ (∀ net a p t,
     Script.IsNullOrWhiteSpace a = true →
     Script.Test_PingFast net a t = (false, [])
     ∧ Script.Test_PortFast net a p t = (false, []))
  ∧ (∀ outcome refuses elapsed label,
     let env := {| App.isWindows := false; App.refusesPort := refuses;
                   App.online := outcome; App.took := elapsed;
                   App.timeString := label |} in
     let s := App.step (App.CallStart env (Some Scenario.unaddressed)) App.initial in
     App.issued s = [App.SocketConnect (App.JsNum 80) (App.JsStr "");
                     App.Exec "ping -c 1 -W 1 ";
                     App.Exec "ping -c 1 -W 1 undefined"]
     ∧ (λ m, (λ n, App.prop n "status") <$> App.msg_nodes m)
         <$> App.sent (App.steps (App.settleAll env 0 3) s)
       = [[App.JsBool (outcome (App.SocketConnect (App.JsNum 80) (App.JsStr "")));
           App.JsBool (outcome (App.Exec "ping -c 1 -W 1 "));
           App.JsBool (outcome (App.Exec "ping -c 1 -W 1 undefined"))]]).
Proof.
  split; [|split].
  - intros. by apply checkEntry_blank.
  - intros. split; [by apply Test_PingFast_blank | by apply Test_PortFast_blank].
  - intros outcome refuses elapsed label. split; vm_compute; reflexivity.
Qed.

(** C9.  A raw node whose port is null or the empty string is normalised
    to an entry without port; with a usable address that entry is probed by
    one ping and nothing else.  A TCP connect is attempted only when the
    raw port is neither null nor empty. *)
Theorem empty_port_selects_ping (cast : string → option Z) (raw : Script.RawNode)
    (net : Script.Network) (statuses : gmap string bool) :
  Script.raw_port raw = Script.JNull ∨ Script.raw_port raw = Script.JStr "" →
  ∃ entry,
    Script.normalizeNode cast raw = Some entry
    ∧ Script.port entry = None
    ∧ (∀ a, Script.raw_address raw = Some a → Script.IsNullOrWhiteSpace (Some a) = false →
       Script.checkEntry net statuses entry
       = (<[Script.raw_id raw := net (Script.PingSend a Script.pingTimeoutMs)]> statuses,
          [Script.PingSend a Script.pingTimeoutMs]))
    ∧ (∀ a p t, Script.TcpBeginConnect a p t ∉ snd (Script.checkEntry net statuses entry))
    ∧ (∀ raw' entry' a p t,
       Script.normalizeNode cast raw' = Some entry' →
       Script.TcpBeginConnect a p t ∈ snd (Script.checkEntry net statuses entry') →
       Script.raw_port raw' ≠ Script.JNull ∧ Script.raw_port raw' ≠ Script.JStr "").
Proof.
  intros Hport. unfold Script.normalizeNode.
  rewrite (normalizePort_empty cast _ Hport). simpl. eexists. split; [reflexivity|].
  simpl. split; [done|]. split; [|split].
  - intros a Ha Hb. by apply checkEntry_ping.
  - intros a p t Hin. apply checkEntry_tcp in Hin. simpl in Hin. by destruct Hin.
  - intros raw' entry' a p t Hn Hin. apply checkEntry_tcp in Hin as [q Hq].
    destruct (Script.normalizePort cast (Script.raw_port raw')) as [po|] eqn:Hp;
      simplify_eq/=.
    by apply (normalizePort_Some cast _ q).
Qed.

Lemma empty_port_selects_ping_witness :
  ∃ entry,
    Script.normalizeNode (λ _, None)
      {| Script.raw_id := "n1"; Script.raw_name := Script.JStr "printer";
         Script.raw_address := Some "10.0.0.9"; Script.raw_port := Script.JStr "";
         Script.raw_primaryParentId := None; Script.raw_secondaryParentId := None;
         Script.raw_icon := Script.JNull; Script.raw_iconType := Script.JNull;
         Script.raw_x := Script.JNull; Script.raw_y := Script.JNull |} = Some entry
    ∧ Script.port entry = None
    ∧ snd (Script.checkEntry Scenario.net ∅ entry) = [Script.PingSend "10.0.0.9" 300].
Proof.
  destruct (empty_port_selects_ping (λ _, None)
    {| Script.raw_id := "n1"; Script.raw_name := Script.JStr "printer";
       Script.raw_address := Some "10.0.0.9"; Script.raw_port := Script.JStr "";
       Script.raw_primaryParentId := None; Script.raw_secondaryParentId := None;
       Script.raw_icon := Script.JNull; Script.raw_iconType := Script.JNull;
       Script.raw_x := Script.JNull; Script.raw_y := Script.JNull |}
    Scenario.net ∅ (or_intror eq_refl)) as (entry & Hn & Hp & Hping & _).
  exists entry. split; [exact Hn|]. split; [exact Hp|].
  rewrite (Hping "10.0.0.9" eq_refl eq_refl). reflexivity.
Defined.

(** ** Published records *)

Section Published.

Import Script.


Lemma run_ids cast (passes : list Pass) (stateStore : gmap string HostState) :
  fmap r_id <$> fst (run cast passes stateStore)
  = (λ rawNodes, id <$> normalizeNodes cast rawNodes) <$> omap pass_config passes.
Proof.
  revert stateStore. induction passes as [|p passes IH]; intros stateStore; [done|].
  simpl. destruct (pass_config p) as [rawNodes|]; [|by apply IH].
  specialize (IH (stateStore_after
    (tick (pass_net p) (pass_now p) (normalizeNodes cast rawNodes) stateStore))).
  destruct (run cast passes _) as [outs final]. csimpl in *.
  rewrite IH. f_equal.
  apply (tick_ids (pass_net p) (pass_now p) (normalizeNodes cast rawNodes) stateStore).
Qed.

End Published.

Section PublishedApp.

Import App.

Implicit Types (s : Main) (env : Env) (c : Config) (l : list JsObj) (who : Caller).

(** What a step sends is the message of a round that ends (or of a round
    over no node): the results of its nodes, in the order of its array. *)
Lemma step_sent (e : Event) s (m : StatusMessage) :
  wellFormed s →
  m ∈ sent (step e s) →
  m ∈ sent s
  ∨ (∃ r rd, rounds s !! r = Some rd ∧ rounds (step e s) !! r = None
             ∧ Forall2 (λ n o, ∃ b t, o = statusResult n b t) (mapped rd) (msg_nodes m))
  ∨ (msg_nodes m = []
     ∧ ∃ c, monitoringConfig (step e s) = Some c ∧ nodes c = NodesArray []).
Proof.
  intros [_ Hwf]. destruct e as [env config| |env h|env r i]; simpl.
  - rewrite start_unfold.
    pose proof (runMonitoring_sent env (ByStart config) (snd (replaceRun config s)) m)
      as Hround.
    pose proof (runMonitoring_timers env (ByStart config) (snd (replaceRun config s)))
      as (_ & _ & Hc & _).
    rewrite replaceRun_state in Hround, Hc. simpl in Hround, Hc.
    rewrite replaceRun_state. simpl.
    destruct (runMonitoring env _ _) as [[[|r]|] s2]; simpl in *;
      [destruct config as [c|]; simpl|..];
      (intros Hm; destruct (Hround Hm) as [?|(Hnil & c' & Heq & Hl)]; [by left|]);
      right; right; (split; [done|]); exists c'; simpl; by rewrite Hc.
  - rewrite stop_unfold. by left.
  - destruct (armed h s); [|by left].
    pose proof (runMonitoring_timers env ByTimer s) as (_ & _ & Hc & _). simpl in Hc.
    intros Hm. destruct (runMonitoring_sent env ByTimer s m Hm) as [?|(Hnil & c & ? & ?)];
      [by left|].
    right; right. split; [done|]. exists c. by rewrite Hc.
  - intros Hm.
    destruct (settle_sent env r i s m Hm) as [?|(rd & p & Hr & Hp & Ho & Hgone & _ & Hres)];
      [by left|].
    right; left. exists r, rd. split; [done|]. split; [done|].
    destruct (Hwf r rd Hr) as (_ & _ & Hb).
    pose proof (built_results _ _ (Forall_insert _ _ i _ Hb (built_settled env p)) Hres) as H.
    rewrite list_fmap_insert, list_insert_id in H; [done|].
    by rewrite list_lookup_fmap, Hp.
Qed.

(** A round in flight is an earlier one, with the nodes it had, or a new
    one over the array of the configuration in force. *)
Lemma step_rounds (e : Event) s (r : nat) (rd : Round) :
  wellFormed s →
  rounds (step e s) !! r = Some rd →
  (∃ rd0, rounds s !! r = Some rd0 ∧ mapped rd = mapped rd0)
  ∨ (rounds s !! r = None
     ∧ ∃ c, monitoringConfig (step e s) = Some c ∧ nodes c = NodesArray (mapped rd)).
Proof.
  intros [_ Hwf].
  assert (∀ k, k = nextRound s → rounds s !! k = None) as Hfresh.
  { intros k ->. destruct (rounds s !! nextRound s) as [x|] eqn:Hx; [|done].
    destruct (Hwf _ _ Hx) as (? & _). lia. }
  destruct e as [env config| |env h|env k i]; simpl.
  - rewrite start_unfold.
    pose proof (runMonitoring_rounds env (ByStart config) (snd (replaceRun config s)) r rd)
      as Hround.
    pose proof (runMonitoring_timers env (ByStart config) (snd (replaceRun config s)))
      as (_ & _ & Hc & _).
    rewrite replaceRun_state in Hround, Hc. simpl in Hround, Hc.
    rewrite replaceRun_state. simpl.
    destruct (runMonitoring env _ _) as [[[|r']|] s2]; simpl in *;
      [destruct config as [c|]; simpl|..];
      (intros Hr; destruct (Hround Hr) as [?|(-> & _ & _ & _ & _ & c' & Heq & Hl)];
       [left; eauto|]);
      right; (split; [by apply Hfresh|]); exists c'; simpl; by rewrite Hc.
  - rewrite stop_unfold. simpl. left. eauto.
  - destruct (armed h s); [|left; eauto].
    pose proof (runMonitoring_timers env ByTimer s) as (_ & _ & Hc & _). simpl in Hc.
    intros Hr.
    destruct (runMonitoring_rounds env ByTimer s r rd Hr)
      as [?|(-> & _ & _ & _ & _ & c & ? & ?)]; [left; eauto|].
    right. split; [by apply Hfresh|]. exists c. by rewrite Hc.
  - intros Hr. destruct (settle_rounds env k i r s rd Hr) as (rd0 & ? & _ & ?).
    left. eauto.
Qed.


End PublishedApp.



(** C8.  A pass of the script reports exactly the hosts of the host list
    it loaded, whatever the state store holds: an id that is not in the
    list is not reported, and its stored state stays as it is.  So the
    outputs of successive passes follow the successive configurations.  A
    message of the embedded scheduler reports the hosts of the array its
    round was started on, and that is the array of the configuration in
    force when the round began, not when it ends: a round that waits for
    its outcomes when [start] installs a new list goes on and publishes
    the old one.  With the loop running on A, B and C, a round of the timer
    in flight and [start] invoked without B, the message sent last reports
    B although the configuration in force has no B. *)
Theorem snapshot_hosts_are_current :
  (∀ net now nodes stateStore,
     let t := Script.tick net now nodes stateStore in
     Script.r_id <$> Script.finalResults t = Script.id <$> nodes
     ∧ (∀ k, k ∉ Script.id <$> nodes →
             (k ∉ Script.r_id <$> Script.finalResults t)
             ∧ Script.stateStore_after t !! k = stateStore !! k))
  ∧ (∀ cast passes stateStore,
     fmap Script.r_id <$> fst (Script.run cast passes stateStore)
     = (λ rawNodes, Script.id <$> Script.normalizeNodes cast rawNodes)
         <$> omap Script.pass_config passes)
  ∧ (∀ es e m,
     let s := App.steps es App.initial in
     m ∈ App.sent (App.step e s) →
     m ∈ App.sent s
     ∨ (∃ r rd, App.rounds s !! r = Some rd ∧ App.rounds (App.step e s) !! r = None
                ∧ App.ids (App.msg_nodes m) = App.ids (App.mapped rd))
     ∨ (App.msg_nodes m = []
        ∧ ∃ c, App.monitoringConfig (App.step e s) = Some c
               ∧ App.nodes c = App.NodesArray []))
  ∧ (∀ es e r rd,
     let s := App.steps es App.initial in
     App.rounds (App.step e s) !! r = Some rd →
     (∃ rd0, App.rounds s !! r = Some rd0 ∧ App.mapped rd = App.mapped rd0)
     ∨ (App.rounds s !! r = None
        ∧ ∃ c, App.monitoringConfig (App.step e s) = Some c
               ∧ App.nodes c = App.NodesArray (App.mapped rd)))
  ∧ (let s := App.steps Scenario.replaced App.initial in
     let s' := App.steps Scenario.thereafter s in
     App.orderly (Scenario.replaced ++ Scenario.thereafter)%list App.initial = true
     ∧ App.monitoringConfig s = Some Scenario.shrunk
     ∧ App.monitoringConfig s' = Some Scenario.shrunk
     ∧ (λ m, App.ids (App.msg_nodes m)) <$> App.sent s
       = [[App.JsStr "A"; App.JsStr "B"; App.JsStr "C"]]
     ∧ (λ m, App.ids (App.msg_nodes m)) <$> App.sent s'
       = [[App.JsStr "A"; App.JsStr "B"; App.JsStr "C"];
          [App.JsStr "A"; App.JsStr "C"];
          [App.JsStr "A"; App.JsStr "B"; App.JsStr "C"]]).
Proof.
  split; [|split; [|split; [|split]]].
  - intros net now nodes stateStore t. split; [apply tick_ids|].
    intros k Hk. split; [unfold t; by rewrite tick_ids|].
    by apply processNodes_stale.
  - apply run_ids.
  - intros es e m s Hm.
    assert (App.wellFormed s) as Hwf by apply wellFormed_steps, initial_wellFormed.
    destruct (step_sent e s m Hwf Hm) as [?|[(r & rd & Hr & Hgone & Hres)|?]];
      [by left| |by right; right].
    right; left. exists r, rd. split; [done|]. split; [done|]. by apply ids_results.
  - intros es e r rd s Hr. apply step_rounds; [|done].
    apply wellFormed_steps, initial_wellFormed.
  - vm_compute. repeat split; reflexivity.
Qed.

(** A host dropped from the configuration: its state stays in the store
    and the next pass does not report it. *)
Example removed_host_not_reported :
  let first := Script.tick Scenario.net 0
                 [Scenario.hostA; Scenario.hostB; Scenario.hostC] ∅ in
  let second := Script.tick Scenario.net Duration.TicksPerSecond
                  [Scenario.hostA; Scenario.hostC] (Script.stateStore_after first) in
  Script.r_id <$> Script.finalResults second = ["A"; "C"]
  ∧ Script.stateStore_after second !! "B"
    = Some {| Script.Status := true; Script.ChangeTime := 0 |}.
Proof. split; vm_compute; reflexivity. Qed.

(** ** Start and stop *)

Section StartStop.

Import App.

Implicit Types (s : Main) (env : Env) (c : Config) (l : list JsObj) (who : Caller).

(** [start] without host list: the round returns at once and the timer is
    armed. *)
Lemma start_no_list env c s :
  nodes c = NodesFalsy →
  start env (Some c) s
  = (Some (Replied {| success := true |}), arm c (snd (replaceRun (Some c) s))).
Proof.
  intros Hl. rewrite start_unfold.
  by rewrite runMonitoring_no_list
    by (right; exists c; by rewrite replaceRun_state).
Qed.

(** [start] over the empty array: the round sends its message at once. *)
Lemma start_empty env c s :
  nodes c = NodesArray [] →
  start env (Some c) s
  = (Some (Replied {| success := true |}),
     arm c (snd (send {| msg_nodes := []; msg_updated := timeString env |}
                   (snd (replaceRun (Some c) s))))).
Proof.
  intros Hl. rewrite start_unfold.
  by rewrite (runMonitoring_empty env _ _ c) by (by rewrite ?replaceRun_state).
Qed.

(** [start] without configuration or on a host list that is no array. *)
Lemma start_rejected env config s :
  config = None ∨ (∃ c, config = Some c ∧ nodes c = NodesOther) →
  start env config s = (None, snd (replaceRun config s)).
Proof.
  intros Hbad. rewrite start_unfold.
  destruct Hbad as [-> | (c & -> & Hl)].
  - by rewrite runMonitoring_no_list by (left; by rewrite replaceRun_state).
  - by rewrite (runMonitoring_not_array _ _ _ c) by (by rewrite ?replaceRun_state).
Qed.

(** [start] on an array with a port that [connect] refuses. *)
Lemma start_refused env c l s :
  nodes c = NodesArray l → existsb (refused env) (probeEvent env <$> l) = true →
  start env (Some c) s
  = (None,
     snd (issue (List.filter (λ ev, negb (refused env ev)) (probeEvent env <$> l))
            (snd (replaceRun (Some c) s)))).
Proof.
  intros Hl Hbad. rewrite start_unfold.
  by rewrite (runMonitoring_refused env _ _ c l) by (by rewrite ?replaceRun_state).
Qed.

(** [start] on an array of nodes: the handler waits for its first round. *)
Lemma start_waits env c l s :
  nodes c = NodesArray l → l ≠ [] →
  existsb (refused env) (probeEvent env <$> l) = false →
  start env (Some c) s
  = (Some (Awaiting (nextRound s)),
     {| monitoringInterval := monitoringInterval s;
        monitoringConfig := Some c;
        timers := timers (snd (replaceRun (Some c) s));
        nextHandle := nextHandle s;
        sent := sent s;
        issued := (issued s ++ (probeEvent env <$> l))%list;
        rounds := <[nextRound s := {| probes := pending env <$> l;
                                      caller := ByStart (Some c) |}]> (rounds s);
        nextRound := S (nextRound s) |}).
Proof.
  intros Hl Hne Hok. rewrite start_unfold.
  rewrite (runMonitoring_array env _ _ c l) by (by rewrite ?replaceRun_state).
  by rewrite replaceRun_state.
Qed.

Lemma orderly_app (es es' : list Event) s :
  orderly (es ++ es')%list s = orderly es s && orderly es' (steps es s).
Proof.
  revert s. induction es as [|e es IH]; intros s; [done|].
  simpl. by rewrite IH, andb_assoc.
Qed.

End StartStop.

(** C6 (amended).  In any state the main process can reach: a [start] whose
    configuration carries no host list (nodes missing, null or otherwise
    falsy) is accepted; it replies success at once and arms the timer, its
    first round and every later one do nothing, no probe and no message.  A
    [start] without configuration object, or whose host list is a value
    that is not an array, throws; it arms no timer, nothing is probed and
    nothing sent.  The timer [monitoringInterval] refers to is cancelled in
    both cases, so that, when no [start] was invoked while another waited
    for its first round, the accepted call leaves its own timer as the only
    one and the failed call leaves the loop Idle. *)
Theorem start_with_bad_host_list (es : list App.Event) (env : App.Env) :
  let s := App.steps es App.initial in
  (∀ c, App.nodes c = App.NodesFalsy →
     let r := App.start env (Some c) s in
     let own := {| App.handle := App.nextHandle s;
                   App.delay := App.or_else (App.interval c) (App.JsNum 2000) |} in
     fst r = Some (App.Replied {| App.success := true |})
     ∧ App.Running (snd r)
     ∧ App.timers (snd r) = own :: App.timers (snd (App.replaceRun (Some c) s))
     ∧ (App.orderly es App.initial = true → App.timers (snd r) = [own])
     ∧ App.sent (snd r) = App.sent s ∧ App.issued (snd r) = App.issued s
     ∧ App.rounds (snd r) = App.rounds s
     ∧ (∀ env' h, App.step (App.TimerFires env' h) (snd r) = snd r))
  ∧ (∀ config,
     config = None ∨ (∃ c, config = Some c ∧ App.nodes c = App.NodesOther) →
     let r := App.start env config s in
     fst r = None
     ∧ (∀ t, t ∈ App.timers (snd r) → t ∈ App.timers s)
     ∧ App.nextHandle (snd r) = App.nextHandle s
     ∧ (App.orderly es App.initial = true → App.Idle (snd r))
     ∧ App.sent (snd r) = App.sent s ∧ App.issued (snd r) = App.issued s
     ∧ App.rounds (snd r) = App.rounds s).
Proof.
  intros s.
  assert (Hs : App.orderly es App.initial = true → App.consistent s).
  { intros Ho. by apply (inOrder_steps es _ Ho initial_inOrder). }
  split.
  - intros c Hl r own. subst r own. rewrite (start_no_list env c s Hl).
    rewrite replaceRun_state. simpl.
    split; [done|]. split; [done|]. split; [done|].
    split; [intros Ho; by rewrite (consistent_cleared s (Hs Ho))|].
    repeat split; try done.
    intros env' h. destruct (App.armed h _); [|done].
    by rewrite runMonitoring_no_list by (right; exists c; done).
  - intros config Hbad r. subst r. rewrite (start_rejected env config s Hbad).
    rewrite replaceRun_state. simpl.
    split; [done|]. split; [intros t; apply cleared_timers|]. split; [done|].
    split; [intros Ho; by apply consistent_cleared, Hs|]. done.
Qed.

(** C6 as stated fails: a configuration without host list starts the
    loop. *)
Lemma start_without_host_list_runs :
  let r := App.start Scenario.env
             (Some {| App.nodes := App.NodesFalsy; App.interval := App.JsUndefined |})
             App.initial in
  fst r = Some (App.Replied {| App.success := true |})
  ∧ App.Running (snd r)
  ∧ App.timers (snd r) = [{| App.handle := 0; App.delay := App.JsNum 2000 |}].
Proof. repeat split; done. Qed.

(** C7.  As long as no [start] is invoked while an earlier [start] waits
    for its first round, the claim holds: at most one timer is armed in
    every state; a [start] cancels the timer of the previous run before
    its first round, the loop is Idle while that round is in flight, and
    when the round ends exactly the timer of this [start] is armed, under
    a handle no earlier timer had, with the new configuration; a [start]
    one of whose ports is refused throws and leaves the loop Idle; [stop]
    succeeds and leaves the loop Idle, and a second [stop] succeeds and
    changes nothing.  In every state [stop] succeeds, forgets the handle,
    and a second [stop] changes nothing.  But the handler stores the handle
    of its timer only after the first round: a [start] invoked while
    another [start] waits for its first round finds no timer to cancel,
    both arm a timer, two timers of different configurations run, and
    [stop] cancels only the one armed last; the other one stays armed
    after [stop] has returned, also after a second [stop], and its rounds
    go on publishing.  For the same reason a [stop] invoked while a [start]
    waits for its first round finds no timer: the loop is Idle when [stop]
    returns, and Running once the round has ended. *)
Theorem start_stop_idempotent :
  (∀ es,
     App.orderly es App.initial = true →
     let s := App.steps es App.initial in
     (length (App.timers s) ≤ 1)%nat
     ∧ (App.suspended s = true → App.Idle s)
     ∧ (∀ env config,
          let cleared := snd (App.replaceRun config s) in
          App.Idle cleared ∧ App.monitoringConfig cleared = config
          ∧ App.Idle (snd (App.runMonitoring env (App.ByStart config) cleared)))
     ∧ (∀ env env' c l,
          App.nodes c = App.NodesArray l → l ≠ [] →
          existsb (App.refused env) (App.probeEvent env <$> l) = false →
          App.isWindows env' = App.isWindows env →
          let waiting := App.step (App.CallStart env (Some c)) s in
          let ended := App.steps (App.settleAll env' (App.nextRound s) (length l)) waiting in
          fst (App.start env (Some c) s) = Some (App.Awaiting (App.nextRound s))
          ∧ App.Idle waiting
          ∧ App.monitoringConfig waiting = Some c
          ∧ App.timers ended
            = [{| App.handle := App.nextHandle s;
                  App.delay := App.or_else (App.interval c) (App.JsNum 2000) |}]
          ∧ (App.nextHandle s ∉ App.handle <$> App.timers s)
          ∧ App.monitoringInterval ended = Some (App.nextHandle s)
          ∧ App.monitoringConfig ended = Some c)
     ∧ (∀ env c l,
          App.nodes c = App.NodesArray l →
          existsb (App.refused env) (App.probeEvent env <$> l) = true →
          let r := App.start env (Some c) s in
          fst r = None ∧ App.Idle (snd r) ∧ App.sent (snd r) = App.sent s
          ∧ App.rounds (snd r) = App.rounds s)
     ∧ (let once := App.stop s in
        let twice := App.stop (snd once) in
        fst once = Some {| App.success := true |}
        ∧ App.Idle (snd once) ∧ App.monitoringInterval (snd once) = None
        ∧ fst twice = Some {| App.success := true |}
        ∧ App.Idle (snd twice) ∧ snd twice = snd once))
  ∧ (∀ s,
     let once := App.stop s in
     fst once = Some {| App.success := true |}
     ∧ App.monitoringInterval (snd once) = None
     ∧ (∀ t, t ∈ App.timers (snd once) → t ∈ App.timers s)
     ∧ App.stop (snd once) = once)
  ∧ (let s := App.steps Scenario.overlapping App.initial in
     let stopped := snd (App.stop s) in
     let later := App.steps (App.TimerFires Scenario.env 0 :: App.settleAll Scenario.env 2 1)
                    (snd (App.stop stopped)) in
     App.orderly Scenario.overlapping App.initial = false
     ∧ App.timers s = [{| App.handle := 1; App.delay := App.JsNum 5000 |};
                       {| App.handle := 0; App.delay := App.JsNum 2000 |}]
     ∧ fst (App.stop s) = Some {| App.success := true |}
     ∧ App.timers stopped = [{| App.handle := 0; App.delay := App.JsNum 2000 |}]
     ∧ App.Running stopped
     ∧ App.Running (snd (App.stop stopped))
     ∧ length (App.sent later) = S (length (App.sent stopped)))
  ∧ (let early := App.steps (take 2 Scenario.stoppedEarly) App.initial in
     let s := App.steps Scenario.stoppedEarly App.initial in
     App.orderly Scenario.stoppedEarly App.initial = true
     ∧ App.Idle early ∧ App.monitoringInterval early = None
     ∧ App.timers s = [{| App.handle := 0; App.delay := App.JsNum 2000 |}]
     ∧ App.Running s).
Proof.
  split; [|split; [|split]]; [| | |vm_compute; repeat split; (reflexivity || discriminate)].
  - intros es Ho s.
    pose proof (inOrder_steps es _ Ho initial_inOrder) as Hin. fold s in Hin.
    pose proof Hin as [Hs _].
    split; [by apply consistent_at_most_one|].
    split; [by apply inOrder_suspended|].
    split; [|split; [|split]].
    + intros env config cleared.
      pose proof (replaceRun_idle config s Hs) as Hidle. fold cleared in Hidle.
      split; [done|]. split; [unfold cleared; by rewrite replaceRun_state|].
      unfold App.Idle. by rewrite (proj1 (runMonitoring_timers env _ cleared)).
    + intros env env' c l Hl Hne Hok Hw waiting ended. subst waiting ended. simpl.
      rewrite (start_waits env c l s Hl Hne Hok), (replaceRun_idle _ s Hs). simpl.
      rewrite (settleAll_round env env' (App.nextRound s) (App.ByStart (Some c)) l);
        [|by simpl; rewrite lookup_insert_eq|done..].
      rewrite finish_state. simpl.
      repeat split; try done.
      intros (t & Hh & Ht)%list_elem_of_fmap.
      destruct Hs as (_ & _ & Hlt). specialize (Hlt t Ht). lia.
    + intros env c l Hl Hbad r. subst r. rewrite (start_refused env c l s Hl Hbad).
      simpl. rewrite replaceRun_state. simpl.
      split; [done|]. split; [by apply consistent_cleared|]. done.
    + cbv zeta. rewrite !stop_unfold. cbn [fst snd App.monitoringInterval App.timers].
      rewrite (consistent_cleared s Hs). repeat split; done.
  - intros s once. subst once. rewrite !stop_unfold. simpl.
    split; [done|]. split; [done|]. split; [intros t; apply cleared_timers|]. done.
  - vm_compute. repeat split; (reflexivity || discriminate).
Qed.

(** One [start] after the other, each with its outcomes, then [stop]
    twice: the armed timers after each call and after each round. *)
Example restart_trace :
  App.orderly Scenario.restarted App.initial = true
  ∧ (λ k, App.timers (App.steps (take k Scenario.restarted) App.initial))
      <$> [1; 4; 5; 6; 7; 8]%nat
    = [[];
       [{| App.handle := 0; App.delay := App.JsNum 2000 |}];
       [];
       [{| App.handle := 1; App.delay := App.JsNum 5000 |}];
       []; []].
Proof. split; vm_compute; reflexivity. Qed.

(** A port that is no port number: [start] throws, no timer is armed and
    nothing is sent, while the operations of the other nodes are under
    way. *)
Example start_with_refused_port :
  let r := App.start Scenario.env
             (Some {| App.nodes := App.NodesArray [Scenario.nodeA; Scenario.outOfRange];
                      App.interval := App.JsNum 2000 |})
             App.initial in
  fst r = None ∧ App.timers (snd r) = [] ∧ App.sent (snd r) = []
  ∧ App.rounds (snd r) = ∅
  ∧ App.issued (snd r) = [App.Exec "ping -c 1 -W 1 10.0.0.1"].
Proof. vm_compute. repeat split; reflexivity. Qed.

(** ** Status history *)

Section StatusHistory.

Import History.

Implicit Types (statusHistory : gmap string NodeHistory) (os : list Seen) (o : Seen).

Lemma slice_last_short {A} (n : nat) (a : list A) :
  (length a ≤ n)%nat → slice_last n a = a.
Proof. intros H. unfold slice_last. by replace (length a - n)%nat with 0%nat by lia. Qed.

Lemma slice_last_length {A} (n : nat) (a : list A) :
  length (slice_last n a) = Nat.min n (length a).
Proof. unfold slice_last. rewrite length_drop. lia. Qed.

Lemma last_drop_lt {A} (k : nat) (a : list A) :
  (k < length a)%nat → last (drop k a) = last a.
Proof.
  intros Hk. rewrite !last_lookup, lookup_drop, length_drop. f_equal. lia.
Qed.

Lemma slice_last_snoc {A} (n : nat) (a : list A) (x : A) :
  (0 < n)%nat → slice_last n (slice_last n a ++ [x]) = slice_last n (a ++ [x]).
Proof.
  intros Hn. destruct (decide (length a ≤ n)%nat) as [Hle|Hgt].
  - by rewrite (slice_last_short n a).
  - unfold slice_last. rewrite !length_app, !length_drop. simpl.
    replace (length a - (length a - n) + 1 - n)%nat with 1%nat by lia.
    replace (length a + 1 - n)%nat with (S (length a - n)) by lia.
    rewrite !drop_app_le by (rewrite ?length_drop; lia).
    by rewrite drop_drop, Nat.add_1_r.
Qed.

Lemma changesFrom_app prev nodeId os os' :
  changesFrom prev nodeId (os ++ os')
  = (changesFrom prev nodeId os ++ changesFrom (current prev nodeId os) nodeId os')%list.
Proof.
  revert prev. induction os as [|o os IH]; intros prev; [done|].
  unfold current. simpl. destruct (decide (seen_id o = nodeId)); [|apply IH].
  destruct (decide (prev = Some (seen_status o))); [apply IH|].
  rewrite IH. unfold current. simpl. f_equal. f_equal.
  rewrite last_cons. by destruct (last _).
Qed.

Lemma changes_snoc nodeId os o :
  changes nodeId (os ++ [o])
  = (changes nodeId os
     ++ if decide (seen_id o = nodeId ∧ current None nodeId os ≠ Some (seen_status o))
        then [{| e_status := seen_status o; e_time := seen_at o |}] else [])%list.
Proof.
  unfold changes. rewrite changesFrom_app. f_equal. simpl.
  destruct (decide (seen_id o = nodeId)); [|by rewrite decide_False by tauto].
  destruct (decide (current None nodeId os = Some (seen_status o))).
  - by rewrite decide_False by tauto.
  - by rewrite decide_True by tauto.
Qed.

Lemma trackAll_snoc os o : trackAll (os ++ [o]) = track (trackAll os) o.
Proof. unfold trackAll. by rewrite foldl_app. Qed.

Lemma trackStatusChange_other statusHistory nodeId nodeName newStatus now (j : string) :
  j ≠ nodeId →
  fst (trackStatusChange statusHistory nodeId nodeName newStatus now) !! j = statusHistory !! j.
Proof.
  intros Hj. unfold trackStatusChange.
  destruct (statusHistory !! nodeId) as [h|]; [destruct (negb _)|]; simpl;
    by rewrite ?lookup_insert_ne.
Qed.

Lemma trackAll_recorded os nodeId : fst (trackAll os) !! nodeId = recorded nodeId os.
Proof.
  induction os as [|o os IH] using rev_ind; [done|].
  rewrite trackAll_snoc. unfold track. simpl.
  unfold recorded. rewrite changes_snoc.
  destruct (decide (seen_id o = nodeId)) as [<-|Hne].
  - unfold trackStatusChange. rewrite IH. unfold recorded, current.
    fold (changes (seen_id o) os).
    destruct (last (changes (seen_id o) os)) as [e|] eqn:Hlast; simpl.
    + destruct (Bool.eqb (e_status e) (seen_status o)) eqn:Heq; simpl.
      * apply Bool.eqb_prop in Heq.
        destruct (decide (seen_id o = seen_id o ∧ _)) as [[_ Hd]|_]; [congruence|].
        rewrite app_nil_r, IH. unfold recorded. by rewrite Hlast.
      * assert (e_status e ≠ seen_status o) by (by destruct (e_status e), (seen_status o)).
        destruct (decide (seen_id o = seen_id o ∧ _)) as [_|Hd];
          [|exfalso; apply Hd; split; congruence].
        rewrite last_snoc, lookup_insert_eq. simpl. f_equal. f_equal.
        case_decide as Hlen.
        -- apply slice_last_snoc. unfold MAX_HISTORY_ENTRIES. lia.
        -- rewrite <- (slice_last_snoc MAX_HISTORY_ENTRIES (changes _ _))
             by (unfold MAX_HISTORY_ENTRIES; lia).
           symmetry. apply slice_last_short. lia.
    + destruct (decide (seen_id o = seen_id o ∧ _)) as [_|Hd];
        [|exfalso; apply Hd; split; congruence].
      rewrite last_snoc, lookup_insert_eq. simpl.
      apply last_None in Hlast. rewrite Hlast. reflexivity.
  - destruct (decide (seen_id o = nodeId ∧ _)) as [[? _]|_]; [done|].
    rewrite app_nil_r, trackStatusChange_other by done. apply IH.
Qed.

(** Successive status changes have different statuses. *)
Lemma changesFrom_alternate prev nodeId os (i : nat) e e' :
  changesFrom prev nodeId os !! i = Some e →
  changesFrom prev nodeId os !! S i = Some e' →
  e_status e ≠ e_status e'.
Proof.
  revert prev i. induction os as [|o os IH]; intros prev i; [done|]. simpl.
  destruct (decide (seen_id o = nodeId)); [|apply IH].
  destruct (decide (prev = Some (seen_status o))); [apply IH|].
  destruct i as [|i]; [|apply IH]. simpl. intros [= <-]. simpl.
  generalize (eq_refl (Some (seen_status o))).
  generalize (Some (seen_status o)) at 1 3. intros p Hp.
  clear IH. induction os as [|o' os IH]; [done|]. simpl.
  destruct (decide (seen_id o' = nodeId)); [|apply IH].
  destruct (decide (p = Some (seen_status o'))); [apply IH|].
  simpl. intros [= <-]. simpl. congruence.
Qed.

End StatusHistory.

Section Listener.

Import History.

Lemma onStatusNodes_snoc (us : list Update) (u : Update) :
  onStatusNodes (us ++ [u]) = fst (fst (onStatusNode (onStatusNodes us) u)).
Proof. unfold onStatusNodes. by rewrite foldl_app. Qed.

Lemma updateTracker_lookup (trackers : gmap string App.Tracker) (i j : string) st now :
  App.updateTracker trackers i st now !! j
  = if decide (i = j) then
      match trackers !! i with
      | Some t => if Bool.eqb (App.status t) st then Some t
                  else Some {| App.status := st; App.since := now |}
      | None => Some {| App.status := st; App.since := now |}
      end
    else trackers !! j.
Proof.
  unfold App.updateTracker. case_decide as Hij.
  - subst j. destruct (trackers !! i) as [t|] eqn:Ht.
    + destruct (Bool.eqb _ _); simpl; [done|]. by rewrite lookup_insert_eq.
    + by rewrite lookup_insert_eq.
  - destruct (trackers !! i) as [t|]; [destruct (negb _)|]; by rewrite ?lookup_insert_ne.
Qed.

Lemma trackStatusChange_lookup (statusHistory : gmap string NodeHistory) (i j : string) nm st now :
  fst (trackStatusChange statusHistory i nm st now) !! j
  = if decide (i = j) then
      match statusHistory !! i with
      | Some h => if Bool.eqb (lastStatus h) st then Some h
                  else Some {| lastStatus := st; lastChange := now;
                               history :=
                                 let pushed := (history h ++ [{| e_status := st; e_time := now |}])%list in
                                 if decide (MAX_HISTORY_ENTRIES < length pushed)%nat
                                 then slice_last MAX_HISTORY_ENTRIES pushed else pushed |}
      | None => Some {| lastStatus := st; lastChange := now;
                        history := [{| e_status := st; e_time := now |}] |}
      end
    else statusHistory !! j.
Proof.
  case_decide as Hij.
  - subst j. unfold trackStatusChange. destruct (statusHistory !! i) as [h|] eqn:Hh.
    + destruct (Bool.eqb _ _); simpl; [done|]. by rewrite lookup_insert_eq.
    + simpl. by rewrite lookup_insert_eq.
  - by apply trackStatusChange_other.
Qed.

End Listener.

(** X1.  After any sequence of [trackStatusChange] calls the map holds for
    a node the last 50 of its status changes (the first status seen, then
    every status that differs from the one before), and nothing for a node
    never seen.  So a stored history is never empty, has at most 50
    entries, ends with the entry of [lastStatus] and [lastChange], and its
    successive entries have different statuses. *)
Theorem status_history_records_changes (os : list History.Seen) (nodeId : string) :
  fst (History.trackAll os) !! nodeId = History.recorded nodeId os
  ∧ (∀ h, fst (History.trackAll os) !! nodeId = Some h →
       History.history h
       = History.slice_last History.MAX_HISTORY_ENTRIES (History.changes nodeId os)
       ∧ History.history h ≠ []
       ∧ (length (History.history h) ≤ 50)%nat
       ∧ last (History.history h)
         = Some {| History.e_status := History.lastStatus h;
                   History.e_time := History.lastChange h |}
       ∧ History.alternating (History.history h)).
Proof.
  split; [apply trackAll_recorded|].
  intros h. rewrite trackAll_recorded. unfold History.recorded.
  destruct (last (History.changes nodeId os)) as [[st tm]|] eqn:Hlast; [|done].
  intros [= <-]. simpl.
  assert (Hlen : (0 < length (History.changes nodeId os))%nat).
  { destruct (History.changes nodeId os); [done|simpl; lia]. }
  split; [done|]. split; [|split; [|split]].
  - intros Hnil. apply (f_equal length) in Hnil.
    rewrite slice_last_length in Hnil. unfold History.MAX_HISTORY_ENTRIES in Hnil.
    simpl length in Hnil. lia.
  - rewrite slice_last_length. unfold History.MAX_HISTORY_ENTRIES. lia.
  - unfold History.slice_last, History.MAX_HISTORY_ENTRIES.
    rewrite last_drop_lt by lia. done.
  - intros i e e'. unfold History.slice_last. rewrite !lookup_drop.
    replace (length (History.changes nodeId os) - History.MAX_HISTORY_ENTRIES + S i)%nat
      with (S (length (History.changes nodeId os) - History.MAX_HISTORY_ENTRIES + i)) by lia.
    apply changesFrom_alternate.
Qed.

(** X2.  A call of [trackStatusChange] shows a toast exactly when the node
    was seen before and its status differs from the one seen last: a
    success toast when it comes online, an error toast when it goes
    offline.  The first status of a node and a repeated status are
    silent. *)
Theorem toast_on_status_change (os : list History.Seen) (o : History.Seen) :
  snd (History.trackAll (os ++ [o]))
  = (snd (History.trackAll os)
     ++ match History.current None (History.seen_id o) os with
        | Some st =>
            if Bool.eqb st (History.seen_status o) then []
            else [History.changeToast (History.seen_name o) (History.seen_status o)]
        | None => []
        end)%list.
Proof.
  rewrite trackAll_snoc. unfold History.track. simpl. f_equal.
  unfold History.trackStatusChange. rewrite trackAll_recorded.
  unfold History.recorded, History.current. fold (History.changes (History.seen_id o) os).
  destruct (last (History.changes (History.seen_id o) os)) as [e|]; simpl; [|done].
  by destruct (Bool.eqb _ _).
Qed.

(** X3.  In the listener the uptime tracker and the status history of a
    node are written together: after any sequence of updates a node has a
    tracker exactly when it has a history, and both hold the same status.
    When within each update the clock does not go back, the tracker's
    [since] is not later than the history's [lastChange]. *)
Theorem tracker_and_history_agree (us : list History.Update) (nodeId : string) :
  let p := History.onStatusNodes us in
  App.status <$> History.uptimeTrackers p !! nodeId
  = History.lastStatus <$> History.statusHistory p !! nodeId
  ∧ (Forall (λ u, History.at_write (History.u_clock u)
                  ≤ History.at_history (History.u_clock u)) us →
     ∀ t h, History.uptimeTrackers p !! nodeId = Some t →
            History.statusHistory p !! nodeId = Some h →
            App.since t ≤ History.lastChange h).
Proof.
  simpl. induction us as [|u us IH] using rev_ind.
  - split; [done|]. intros _ t h. unfold History.onStatusNodes. simpl.
    by rewrite lookup_empty.
  - rewrite onStatusNodes_snoc. unfold History.onStatusNode. simpl.
    rewrite updateTracker_lookup, trackStatusChange_lookup.
    destruct IH as [IHs IHt].
    case_decide as Hid; [subst nodeId|].
    + split.
      * destruct (History.uptimeTrackers _ !! History.u_id u) as [t|],
                 (History.statusHistory _ !! History.u_id u) as [h|];
          simpl in *; try done.
        injection IHs as IHs. rewrite IHs.
        destruct (Bool.eqb _ _); simpl; by rewrite ?IHs.
      * intros Hmono. apply Forall_app in Hmono as [Hus Hu].
        rewrite Forall_singleton in Hu. specialize (IHt Hus).
        destruct (History.uptimeTrackers _ !! History.u_id u) as [t|],
                 (History.statusHistory _ !! History.u_id u) as [h|];
          simpl in *; try done.
        -- injection IHs as IHs. rewrite IHs. intros t' h'.
           destruct (Bool.eqb _ _); intros [= <-] [= <-]; simpl; [by apply IHt | lia].
        -- intros t' h' [= <-] [= <-]. simpl. lia.
    + split; [done|]. intros Hmono. apply Forall_app in Hmono as [Hus _]. by apply IHt.
Qed.

(** ** Input validation *)

Section ParseInt.

Import Validation.

Lemma append_cons (x : Ascii.ascii) (a b : string) : String x a +:+ b = String x (a +:+ b).
Proof. reflexivity. Qed.

Lemma append_assoc (a b c : string) : (a +:+ b) +:+ c = a +:+ (b +:+ c).
Proof. induction a as [|x a IH]; [done|]. by rewrite !append_cons, IH. Qed.

Lemma append_empty (s : string) : s +:+ EmptyString = s.
Proof. induction s as [|c s IH]; [done|]. by rewrite append_cons, IH. Qed.

Lemma pretty_N_char_digit (d : N) :
  (d < 10)%N → digitOf (pretty_N_char d) = Some (Z.of_N d) ∧ isDigit (pretty_N_char d) = true.
Proof.
  intros Hd.
  assert (d = 0 ∨ d = 1 ∨ d = 2 ∨ d = 3 ∨ d = 4 ∨ d = 5 ∨ d = 6 ∨ d = 7 ∨ d = 8 ∨ d = 9)%N
    as Hcases by lia.
  repeat (destruct Hcases as [->|Hcases]; [by vm_compute|]). subst d. by vm_compute.
Qed.

Lemma isDigit_digitOf (c : Ascii.ascii) :
  isDigit c = true → ∃ d, digitOf c = Some d ∧ 0 ≤ d < 10.
Proof.
  unfold isDigit, digitOf. intros H. rewrite H. eexists. split; [done|].
  apply andb_prop in H as [H1 H2]. apply Z.leb_le in H1, H2. lia.
Qed.

Lemma not_isDigit_digitOf (c : Ascii.ascii) :
  isDigit c = false → match digitOf c with Some d => 10 ≤ d | None => True end.
Proof.
  unfold isDigit, digitOf. intros H. rewrite H. clear H.
  destruct ((97 <=? code c) && (code c <=? 122)) eqn:E1; simpl.
  { apply andb_prop in E1 as [E1 _]. apply Z.leb_le in E1. lia. }
  destruct ((65 <=? code c) && (code c <=? 90)) eqn:E2; simpl; [|exact I].
  apply andb_prop in E2 as [E2 _]. apply Z.leb_le in E2. lia.
Qed.

(** Printing a positive number in front of [s] puts its digits there:
    reading them back continues from [s] with the number appended to what
    was read before. *)
Lemma pretty_N_go_read (x : N) :
  (0 < x)%N →
  ∃ p : Z, ∀ s acc,
    digits 10 (pretty_N_go x s) acc = digits 10 s (Some (default 0 acc * p + Z.of_N x)).
Proof.
  induction (N.lt_wf_0 x) as [x _ IH]. intros Hx.
  destruct (pretty_N_char_digit (x `mod` 10)%N) as [Hd _]; [by apply N.mod_lt|].
  pose proof (N.div_mod x 10 ltac:(done)) as Hdm.
  destruct (decide (x `div` 10 = 0)%N) as [Hq|Hq].
  - exists 10. intros s acc. rewrite pretty_N_go_step, Hq, pretty_N_go_0 by done.
    simpl. rewrite Hd.
    destruct (Z.ltb_spec (Z.of_N (x `mod` 10)%N) 10) as [_|Hge];
      [|pose proof (N.mod_lt x 10); lia].
    do 2 f_equal. lia.
  - destruct (IH (x `div` 10)%N) as [p Hp];
      [by apply N.div_lt|by apply N.neq_0_lt_0|].
    exists (p * 10). intros s acc. rewrite pretty_N_go_step, Hp by done.
    simpl. rewrite Hd.
    destruct (Z.ltb_spec (Z.of_N (x `mod` 10)%N) 10) as [_|Hge];
      [|pose proof (N.mod_lt x 10); lia].
    do 2 f_equal. lia.
Qed.

Lemma pretty_N_go_app (x : N) (s : string) :
  pretty_N_go x s = pretty_N_go x EmptyString +:+ s.
Proof.
  revert s. induction (N.lt_wf_0 x) as [x _ IH]. intros s.
  destruct (decide (0 < x)%N) as [Hx|Hx].
  - assert (Hlt : (x `div` 10 < x)%N) by (by apply N.div_lt).
    rewrite !(pretty_N_go_step x) by done.
    rewrite (IH _ Hlt (String _ s)), (IH _ Hlt (String _ EmptyString)).
    by rewrite append_assoc.
  - assert (x = 0%N) as -> by lia. by rewrite !pretty_N_go_0.
Qed.

Lemma allDigits_app (s s' : string) :
  allDigits (s +:+ s') = allDigits s && allDigits s'.
Proof.
  induction s as [|c s IH]; [done|].
  rewrite append_cons. simpl. by rewrite IH, andb_assoc.
Qed.

Lemma pretty_N_go_allDigits (x : N) : allDigits (pretty_N_go x EmptyString) = true.
Proof.
  induction (N.lt_wf_0 x) as [x _ IH].
  destruct (decide (0 < x)%N) as [Hx|Hx].
  - rewrite pretty_N_go_step, pretty_N_go_app, allDigits_app by done.
    rewrite IH by (by apply N.div_lt). simpl.
    destruct (pretty_N_char_digit (x `mod` 10)%N) as [_ ->]; [by apply N.mod_lt|done].
  - assert (x = 0%N) as -> by lia. done.
Qed.

Lemma pretty_N_go_startsWithDigit (x : N) :
  (0 < x)%N → startsWithDigit (pretty_N_go x EmptyString) = true.
Proof.
  intros Hx. pose proof (pretty_N_go_allDigits x) as Hall.
  destruct (pretty_N_go x EmptyString) as [|c r] eqn:E.
  - destruct (pretty_N_go_read x Hx) as [p Hp].
    specialize (Hp EmptyString None). rewrite E in Hp. discriminate.
  - simpl in *. by apply andb_prop in Hall as [-> _].
Qed.

(** Printing a number that is not negative. *)
Lemma pretty_nonneg (n : Z) :
  0 ≤ n →
  allDigits (pretty n) = true ∧ startsWithDigit (pretty n) = true
  ∧ ∀ rest, startsWithDigit rest = false →
            digits 10 (pretty n +:+ rest) None = Some n.
Proof.
  intros Hn. destruct n as [|q|q]; [| |lia].
  - split; [done|]. split; [done|]. intros rest Hrest. simpl.
    destruct rest as [|c r]; [done|]. simpl in *.
    pose proof (not_isDigit_digitOf c Hrest) as Hc.
    destruct (digitOf c) as [d|]; [|done].
    by destruct (Z.ltb_spec d 10); [lia|].
  - unfold pretty, pretty_Z, pretty, pretty_positive, pretty, pretty_N.
    rewrite decide_False by done.
    split; [apply pretty_N_go_allDigits|].
    split; [by apply pretty_N_go_startsWithDigit|].
    intros rest Hrest. rewrite <- pretty_N_go_app.
    destruct (pretty_N_go_read (N.pos q)) as [p Hp]; [done|].
    rewrite Hp. simpl.
    destruct rest as [|c r]; [done|]. simpl in *.
    pose proof (not_isDigit_digitOf c Hrest) as Hc.
    destruct (digitOf c) as [d|]; [|done].
    by destruct (Z.ltb_spec d 10); [lia|].
Qed.

Lemma not_whitespace_digit (c : Ascii.ascii) : isDigit c = true → isStrWhiteSpace c = false.
Proof.
  unfold isDigit, isStrWhiteSpace. intros [H1 H2]%andb_prop.
  apply Z.leb_le in H1, H2.
  destruct (Z.leb_spec 9 (code c)), (Z.leb_spec (code c) 13), (Z.eqb_spec (code c) 32),
    (Z.eqb_spec (code c) 160); simpl; lia.
Qed.

(** [parseInt] on a text that starts with a digit, in radix 10: no white
    space, no sign, and the digits are read. *)
Lemma parseInt_10_digit (s : string) :
  startsWithDigit s = true → parseInt s 10 = digits 10 s None.
Proof.
  destruct s as [|c r]; [done|]. cbn [startsWithDigit]. intros Hc.
  unfold parseInt. cbn [trimStart]. rewrite (not_whitespace_digit c Hc).
  unfold isDigit in Hc. apply andb_prop in Hc as [H1 H2]. apply Z.leb_le in H1, H2.
  destruct (Z.eqb_spec (code c) 45); [lia|]. destruct (Z.eqb_spec (code c) 43); [lia|].
  cbn -[digits Z.mul]. destruct (digits 10 (String c r) None) as [v|]; [|done].
  cbn -[Z.mul]. f_equal. lia.
Qed.

Lemma parseInt_pretty (n : Z) (rest : string) :
  0 ≤ n → startsWithDigit rest = false → parseInt (pretty n +:+ rest) 10 = Some n.
Proof.
  intros Hn Hrest. destruct (pretty_nonneg n Hn) as (_ & Hstart & Hread).
  rewrite parseInt_10_digit; [by apply Hread|].
  destruct (pretty n); [done|]. done.
Qed.

End ParseInt.

Section Validate.

Import Validation.

Lemma isDigit_not_dot (c : Ascii.ascii) : isDigit c = true → Ascii.eqb c dot = false.
Proof.
  intros Hc. destruct (Ascii.eqb_spec c dot) as [->|]; [|done]. by vm_compute in Hc.
Qed.

Lemma split_digits (p : string) :
  allDigits p = true →
  split dot p = [p] ∧ ∀ r, split dot (p +:+ String dot r) = p :: split dot r.
Proof.
  induction p as [|c p IH]; [done|]. simpl. intros [Hc Hp]%andb_prop.
  destruct (IH Hp) as [IH1 IH2]. rewrite (isDigit_not_dot c Hc). split.
  - by rewrite IH1.
  - intros r. fold (p +:+ String dot r). by rewrite IH2.
Qed.

Lemma concat_split (s : string) : String.concat "." (split dot s) = s.
Proof.
  induction s as [|c s IH]; [done|]. simpl.
  destruct (Ascii.eqb_spec c dot) as [->|Hc].
  - destruct (split dot s) as [|h t] eqn:E; [by destruct s; simpl in E; repeat case_match|].
    change (String.concat "." (EmptyString :: h :: t))
      with (EmptyString +:+ "." +:+ String.concat "." (h :: t)).
    by rewrite IH.
  - destruct (split dot s) as [|h t] eqn:E; [by destruct s; simpl in E; repeat case_match|].
    destruct t as [|h' t]; simpl in *; by rewrite <- IH.
Qed.

Lemma validOctet_pretty (part : string) :
  validOctet part = true ↔ ∃ n, 0 ≤ n ≤ 255 ∧ part = pretty n.
Proof.
  unfold validOctet. split.
  - destruct (parseInt part 10) as [num|]; [|done].
    intros [[H1 H2]%andb_prop H3]%andb_prop.
    apply Z.leb_le in H1, H2. apply String.eqb_eq in H3. eauto.
  - intros (n & Hn & ->).
    rewrite <- (append_empty (pretty n)) at 1.
    rewrite parseInt_pretty by (done || lia).
    rewrite String.eqb_refl.
    destruct (Z.leb_spec 0 n), (Z.leb_spec n 255); simpl; lia.
Qed.

Lemma parseInt_pretty_neg (n : Z) : n < 0 → parseInt (pretty n) 10 = Some n.
Proof.
  destruct n as [|q|q]; [lia..|]. intros _.
  change (pretty (Z.neg q)) with (String (Ascii.ascii_of_nat 45) (pretty (Z.pos q))).
  unfold parseInt. cbn [trimStart].
  change (isStrWhiteSpace (Ascii.ascii_of_nat 45)) with false. cbv iota.
  change (code (Ascii.ascii_of_nat 45)) with 45. cbn -[digits Z.mul pretty].
  destruct (pretty_nonneg (Z.pos q)) as (_ & _ & Hread); [lia|].
  specialize (Hread EmptyString eq_refl). rewrite append_empty in Hread.
  rewrite Hread. done.
Qed.

(** With a hexadecimal prefix, radix 10 reads the leading zero only. *)
Lemma digits_hex_prefix (s : string) : hasHexPrefix s = true → digits 10 s None = Some 0.
Proof.
  destruct s as [|c [|x r]]; [done..|]. simpl.
  intros [Hc Hx]%andb_prop. apply Z.eqb_eq in Hc.
  unfold digitOf. rewrite Hc. simpl.
  apply orb_prop in Hx as [Hx|Hx]; apply Z.eqb_eq in Hx; unfold digitOf; rewrite Hx; done.
Qed.

Lemma parseInt_auto_radix (text : string) :
  isValidPort text = true → parseInt text 0 = parseInt text 10.
Proof.
  unfold isValidPort, parseInt.
  set (S := match trimStart text with
            | String c r => if (code c =? 43) || (code c =? 45) then r else trimStart text
            | EmptyString => trimStart text
            end).
  set (sign := match trimStart text with
               | String c _ => if code c =? 45 then -1 else 1
               | EmptyString => 1
               end).
  cbn -[digits Z.mul hasHexPrefix].
  destruct (hasHexPrefix S) eqn:Hhex; [|done].
  rewrite (digits_hex_prefix S Hhex). cbn -[Z.mul].
  replace (sign * 0) with 0 by lia. done.
Qed.

End Validate.

(** X4.  [isValidIP] accepts exactly the dotted quads written in canonical
    decimal: four numbers from 0 to 255, without sign, leading zero or
    white space, separated by dots. *)
Theorem isValidIP_canonical (ip : string) :
  Validation.isValidIP ip = true
  ↔ ∃ a b c d, 0 ≤ a ≤ 255 ∧ 0 ≤ b ≤ 255 ∧ 0 ≤ c ≤ 255 ∧ 0 ≤ d ≤ 255
               ∧ ip = Validation.dotted a b c d.
Proof.
  unfold Validation.isValidIP. split.
  - destruct (String.eqb ip EmptyString); [done|].
    pose proof (concat_split ip) as Hjoin.
    destruct (Validation.split Validation.dot ip) as [|p1 [|p2 [|p3 [|p4 [|p5 t]]]]];
      try done.
    simpl. intros Hall.
    apply andb_prop in Hall as [(a & Ha & ->)%validOctet_pretty Hall].
    apply andb_prop in Hall as [(b & Hb & ->)%validOctet_pretty Hall].
    apply andb_prop in Hall as [(c & Hc & ->)%validOctet_pretty Hall].
    apply andb_prop in Hall as [(d & Hd & ->)%validOctet_pretty _].
    exists a, b, c, d. by rewrite <- Hjoin.
  - intros (a & b & c & d & Ha & Hb & Hc & Hd & ->).
    destruct (pretty_nonneg a) as (Ha1 & Ha2 & _); [lia|].
    destruct (pretty_nonneg b) as (Hb1 & _ & _); [lia|].
    destruct (pretty_nonneg c) as (Hc1 & _ & _); [lia|].
    destruct (pretty_nonneg d) as (Hd1 & _ & _); [lia|].
    assert (Hsplit : Validation.split Validation.dot (Validation.dotted a b c d)
                     = [pretty a; pretty b; pretty c; pretty d]).
    { unfold Validation.dotted.
      change "." with (String Validation.dot EmptyString).
      rewrite !(append_cons Validation.dot).
      repeat change (EmptyString +:+ ?x) with x.
      rewrite (proj2 (split_digits _ Ha1)), (proj2 (split_digits _ Hb1)),
        (proj2 (split_digits _ Hc1)), (proj1 (split_digits _ Hd1)). done. }
    rewrite Hsplit.
    destruct (String.eqb_spec (Validation.dotted a b c d) EmptyString) as [He|_].
    { unfold Validation.dotted in He. destruct (pretty a); done. }
    simpl. rewrite !(proj2 (validOctet_pretty _)) by eauto. done.
Qed.

(** X5.  [isValidPort] accepts a printed number exactly when it lies
    between 1 and 65535, and it accepts any text that begins with such a
    number and goes on with something that is not a digit. *)
Theorem isValidPort_range :
  (∀ n : Z, Validation.isValidPort (pretty n) = true ↔ 1 ≤ n ≤ 65535)
  ∧ (∀ (n : Z) (rest : string),
       1 ≤ n ≤ 65535 → Validation.startsWithDigit rest = false →
       Validation.isValidPort (pretty n +:+ rest) = true).
Proof.
  split.
  - intros n. unfold Validation.isValidPort.
    destruct (decide (0 ≤ n)) as [Hn|Hn].
    + rewrite <- (append_empty (pretty n)), parseInt_pretty by done.
      destruct (Z.leb_spec 1 n), (Z.leb_spec n 65535); simpl; split; (lia || done).
    + rewrite parseInt_pretty_neg by lia.
      destruct (Z.leb_spec 1 n), (Z.leb_spec n 65535); simpl; split; (lia || done).
  - intros n rest Hn Hrest. unfold Validation.isValidPort.
    rewrite parseInt_pretty by (done || lia).
    destruct (Z.leb_spec 1 n), (Z.leb_spec n 65535); simpl; lia.
Qed.

(** X6.  What [saveNode] stores for a port field: a text that is not empty
    and not a valid port stops the save; an empty text gives the default;
    any other text gives a number between 1 and 65535, the one
    [isValidPort] saw, although the two calls of [parseInt] differ in
    their radix argument. *)
Theorem storedPort_in_range (text : string) (dflt : option Z) :
  match Validation.storedPort text dflt with
  | None => text ≠ EmptyString ∧ Validation.isValidPort text = false
  | Some v =>
      (text = EmptyString ∧ v = dflt)
      ∨ (text ≠ EmptyString
         ∧ ∃ n, v = Some n ∧ 1 ≤ n ≤ 65535 ∧ Validation.parseInt text 10 = Some n)
  end.
Proof.
  unfold Validation.storedPort.
  destruct (String.eqb_spec text EmptyString) as [->|Hne]; simpl; [by left|].
  destruct (Validation.isValidPort text) eqn:Hvalid; simpl; [|done].
  right. split; [done|]. rewrite parseInt_auto_radix by done.
  unfold Validation.isValidPort in Hvalid.
  destruct (Validation.parseInt text 10) as [n|]; [|done].
  apply andb_prop in Hvalid as [H1 H2]. apply Z.leb_le in H1, H2. eauto.
Qed.
